(** * A shallow embedding of the spelling corrector of [src/src/lib.rs]

    The crate [spell] has one type, [SpellingCorrector], holding an alphabet
    ([&str]) and a frequency table ([HashMap<String, u32>]).  This file
    embeds its methods [with_alphabet], [correction], [candidates], [p],
    [known], [edits1] and [edits2] and proves properties of them.

    Modelling choices, all following the Rust source:
    - a Rust [char] is a Unicode scalar value, written as a [Z];
    - a Rust [String] / [&str] is valid UTF-8, i.e. a sequence of scalar
      values; byte offsets (used by [&word[..i]]) are computed from the
      UTF-8 width of each character, and slicing at a byte offset that is not
      a character boundary (or beyond the end) panics, as in Rust;
    - a panic is an [Err] of the [result] monad, naming the panic's cause;
    - [u32] arithmetic is checked: an overflowing [+] panics (the overflow
      checks of a debug build; a release build would wrap instead);
    - [f64] is the kernel's primitive IEEE-754 binary64 type;
    - a [HashMap<String, u32>] is an association list with unique keys, a
      [HashSet<String>] is a duplicate-free list in insertion order; the
      order in which a [HashSet] is iterated is unspecified in Rust
      (randomly seeded hashing), so it is a parameter [iter] of the
      development, only assumed to return a permutation of the set;
    - the Unicode tables behind the regular expression [\w] and behind
      [str::to_lowercase] are parameters of the builder. *)

From Stdlib Require Import ZArith List Bool Lia Permutation.
From Stdlib Require Import PrimFloat Uint63 SpecFloat FloatOps FloatAxioms Ascii.
From Stdlib Require Import String.
Import ListNotations.

Local Open Scope list_scope.
Local Open Scope Z_scope.

(** ** Characters, strings and panics *)

(** A Rust [char]: a Unicode scalar value. *)
Definition char := Z.

(** A Rust [String]: the sequence of scalar values of its UTF-8 bytes. *)
Definition string := list char.

(** Writing a Rust string literal of this file: the Latin-1 characters of a
    Rocq string, one scalar value each. *)
Definition lit (s : String.string) : string :=
  map (fun a => Z.of_nat (nat_of_ascii a)) (String.list_ascii_of_string s).
Arguments lit s%_string.

Definition str_eqb (a b : string) : bool :=
  if list_eq_dec Z.eq_dec a b then true else false.

(** The causes of the panics the code can raise. *)
Inductive panic :=
| P_str_index    (** [&s[a..b]] off a character boundary or out of range *)
| P_map_index    (** [map[key]] on an absent key *)
| P_overflow     (** [u32] addition overflow *)
| P_unwrap_none. (** [Option::unwrap] on [None] *)

Inductive result (A : Type) : Type :=
| Ok (a : A)
| Err (e : panic).
Arguments Ok {A} a.
Arguments Err {A} e.

Definition bind {A B : Type} (m : result A) (k : A -> result B) : result B :=
  match m with
  | Ok a => k a
  | Err e => Err e
  end.

Notation "x <- m ;; k" := (bind m (fun x => k))
  (at level 61, m at next level, right associativity).

(** [iter.map(f).collect::<Result<Vec<_>, _>>()]: the first panic wins. *)
Fixpoint mapM {A B : Type} (f : A -> result B) (l : list A) : result (list B) :=
  match l with
  | [] => Ok []
  | x :: l' => y <- f x;; ys <- mapM f l';; Ok (y :: ys)
  end.

(** [char::len_utf8]. *)
Definition len_utf8 (c : char) : nat :=
  if c <? 128 then 1 else if c <? 2048 then 2 else if c <? 65536 then 3 else 4.

(** [str::len]: the length in bytes. *)
Fixpoint str_len (s : string) : nat :=
  match s with
  | [] => 0
  | c :: s' => len_utf8 c + str_len s'
  end.

(** Splitting [s] at byte offset [i] into [(&s[..i], &s[i..])]; panics when
    [i] is beyond the end or falls inside a character. *)
Fixpoint split_at_byte (s : string) (i : nat) {struct s} : result (string * string) :=
  match i with
  | O => Ok ([], s)
  | S _ =>
      match s with
      | [] => Err P_str_index
      | c :: s' =>
          if Nat.ltb i (len_utf8 c) then Err P_str_index
          else lr <- split_at_byte s' (i - len_utf8 c);;
               Ok (c :: fst lr, snd lr)
      end
  end.

(** [&s[..i]]. *)
Definition slice_to (s : string) (i : nat) : result string :=
  lr <- split_at_byte s i;; Ok (fst lr).

(** [&s[i..]]. *)
Definition slice_from (s : string) (i : nat) : result string :=
  lr <- split_at_byte s i;; Ok (snd lr).

(** [&s[a..b]]: panics unless [a <= b] and both are boundaries in range. *)
Definition slice (s : string) (a b : nat) : result string :=
  if Nat.leb a b then r <- slice_from s a;; slice_to r (b - a)
  else Err P_str_index.

(** ** [HashSet<String>] and [HashMap<String, u32>] *)

(** [HashSet::insert]. *)
Definition hs_insert (x : string) (s : list string) : list string :=
  if existsb (str_eqb x) s then s else s ++ [x].

(** [.collect::<HashSet<String>>()]. *)
Definition collect_set (l : list string) : list string :=
  fold_left (fun s x => hs_insert x s) l [].

Definition u32_max : Z := 4294967295.

(** A frequency table: [HashMap<String, u32>]. *)
Definition freqmap_t := list (string * Z).

(** [HashMap::get]. *)
Fixpoint lookup (m : freqmap_t) (k : string) : option Z :=
  match m with
  | [] => None
  | (k', v) :: m' => if str_eqb k k' then Some v else lookup m' k
  end.

(** [HashMap::contains_key]. *)
Definition contains_key (m : freqmap_t) (k : string) : bool :=
  match lookup m k with Some _ => true | None => false end.

(** [map[key]]: panics on an absent key. *)
Definition index (m : freqmap_t) (k : string) : result Z :=
  match lookup m k with Some v => Ok v | None => Err P_map_index end.

(** [SpellingCorrector]. *)
Record SpellingCorrector := mkSpellingCorrector {
  alphabet : string;
  freqmap : freqmap_t
}.

(** The alphabet of [SpellingCorrector::new]. *)
Definition english_alphabet : string := lit "abcdefghijklmnopqrstuvwxyz".

(** [f64::from(u32)]: exact, through the 63-bit unsigned integers. *)
Definition f64_from_u32 (n : Z) : float := of_uint63 (Uint63.of_Z n).

(** [self.freqmap.values().sum::<u32>()], with the overflow check of [+].
    The sum of non-negative values overflows in one iteration order iff it
    overflows in every order, so the list order is used. *)
Definition sum_u32 (vs : list Z) : result Z :=
  fold_left (fun acc v => s <- acc;;
                          if s + v <=? u32_max then Ok (s + v) else Err P_overflow)
            vs (Ok 0).

(** ** The corrector *)

Section Corrector.

(** The iteration order of a [HashSet]: the set (here in insertion order)
    is traversed as [iter s]. *)
Variable iter : list string -> list string.

Variable self : SpellingCorrector.

(** [known]: the subset of [words] that appear in [freqmap]. *)
Definition known (words : list string) : list string :=
  collect_set (filter (contains_key (freqmap self)) words).

(** [let splits = (0..=word.len()).map(|i| (&word[..i], &word[i..])).collect()]. *)
Definition splits (word : string) : result (list (string * string)) :=
  mapM (fun i => l <- slice_to word i;; r <- slice_from word i;; Ok (l, r))
       (List.seq 0 (S (str_len word))).

(** [.filter(|(_, r)| !r.is_empty()).map(|(l, r)| l.to_string() + &r[1..])]. *)
Definition deletes (sp : list (string * string)) : result (list string) :=
  mapM (fun lr => r1 <- slice_from (snd lr) 1;; Ok (fst lr ++ r1))
       (filter (fun lr => negb (Nat.eqb (str_len (snd lr)) 0)) sp).

(** [.filter(|(_, r)| r.len() > 1)
     .map(|(l, r)| l.to_string() + &r[1..2] + &r[0..1] + &r[2..])]. *)
Definition transposes (sp : list (string * string)) : result (list string) :=
  mapM (fun lr => let r := snd lr in
                  a <- slice r 1 2;; b <- slice r 0 1;; c <- slice_from r 2;;
                  Ok (fst lr ++ a ++ b ++ c))
       (filter (fun lr => Nat.ltb 1 (str_len (snd lr))) sp).

(** [.filter(|(_, r)| !r.is_empty())
     .flat_map(|(l, r)| alphabet.chars().map(|c| l.to_string() + &c.to_string() + &r[1..]))]. *)
Definition replaces (sp : list (string * string)) : result (list string) :=
  ls <- mapM (fun lr => mapM (fun c => r1 <- slice_from (snd lr) 1;;
                                      Ok (fst lr ++ [c] ++ r1))
                             (alphabet self))
             (filter (fun lr => negb (Nat.eqb (str_len (snd lr)) 0)) sp);;
  Ok (List.concat ls).

(** [.flat_map(|(l, r)| alphabet.chars().map(|c| l.to_string() + &c.to_string() + r))]. *)
Definition inserts (sp : list (string * string)) : list string :=
  List.concat (map (fun lr => map (fun c => fst lr ++ [c] ++ snd lr) (alphabet self)) sp).

(** [edits1]: all edits that are one edit away from [word];
    [deletes.chain(transposes).chain(replaces).chain(inserts).collect()]. *)
Definition edits1 (word : string) : result (list string) :=
  sp <- splits word;;
  d <- deletes sp;;
  t <- transposes sp;;
  r <- replaces sp;;
  Ok (collect_set (d ++ t ++ r ++ inserts sp)).

(** [edits2]: [self.edits1(word).into_iter().flat_map(|e1| self.edits1(&e1)).collect()]
    (a [Vec], duplicates kept). *)
Definition edits2 (word : string) : result (list string) :=
  e1 <- edits1 word;;
  ls <- mapM edits1 (iter e1);;
  Ok (List.concat (map iter ls)).

(** [candidates]: the four-tier waterfall. *)
Definition candidates (word : string) : result (list string) :=
  let k1 := known [word] in
  if negb (Nat.eqb (List.length k1) 0) then Ok k1 else
  e1 <- edits1 word;;
  let k2 := known e1 in
  if negb (Nat.eqb (List.length k2) 0) then Ok k2 else
  e2 <- edits2 word;;
  let k3 := known e2 in
  if negb (Nat.eqb (List.length k3) 0) then Ok k3 else
  Ok (collect_set [word]).

(** [p]: [f64::from(self.freqmap[word]) / f64::from(self.freqmap.values().sum::<u32>())]. *)
Definition p (word : string) : result float :=
  c <- index (freqmap self) word;;
  total <- sum_u32 (map snd (freqmap self));;
  Ok (PrimFloat.div (f64_from_u32 c) (f64_from_u32 total)).

(** The comparator of [correction]:
    [|a, b| self.p(a).partial_cmp(&self.p(b)).unwrap()]. *)
Definition cmp_p (a b : string) : result comparison :=
  pa <- p a;;
  pb <- p b;;
  match PrimFloat.compare pa pb with
  | FEq => Ok Eq
  | FLt => Ok Lt
  | FGt => Ok Gt
  | FNotComparable => Err P_unwrap_none
  end.

(** [Iterator::max_by] after its first element: [fold] with
    [cmp::max_by(x, y, compare)], which keeps [y] on [Less] or [Equal]. *)
Fixpoint max_by_fold (acc : string) (l : list string) : result string :=
  match l with
  | [] => Ok acc
  | y :: l' =>
      o <- cmp_p acc y;;
      match o with
      | Gt => max_by_fold acc l'
      | _ => max_by_fold y l'
      end
  end.

(** [Iterator::max_by]: [None] on an empty iterator. *)
Definition max_by (l : list string) : result (option string) :=
  match l with
  | [] => Ok None
  | x :: l' => m <- max_by_fold x l';; Ok (Some m)
  end.

(** [correction]: [self.candidates(word).into_iter().max_by(..).unwrap()]. *)
Definition correction (word : string) : result string :=
  cs <- candidates word;;
  m <- max_by (iter cs);;
  match m with
  | Some w => Ok w
  | None => Err P_unwrap_none
  end.

End Corrector.

(** ** The frequency model builder *)

Section Builder.

(** Membership in the Unicode class [\w] of the [regex] crate. *)
Variable is_word_char : char -> bool.
(** [str::to_lowercase] (Unicode lower-case mapping, with its context rule
    for the final sigma). *)
Variable to_lowercase : string -> string.

(** [Regex::new(r"\w+")?.find_iter(&text)]: the maximal runs of word
    characters, left to right; [cur] is the current run, reversed. *)
Fixpoint word_runs (cur : string) (text : string) : list string :=
  match text with
  | [] => match cur with [] => [] | _ :: _ => [rev cur] end
  | c :: t =>
      if is_word_char c then word_runs (c :: cur) t
      else match cur with
           | [] => word_runs [] t
           | _ :: _ => rev cur :: word_runs [] t
           end
  end.

Definition find_iter_words (text : string) : list string := word_runs [] text.

(** [*freqmap.entry(key).or_insert(0) += 1], with the overflow check. *)
Fixpoint entry_incr (m : freqmap_t) (key : string) : result freqmap_t :=
  match m with
  | [] => Ok [(key, 1)]
  | (k, v) :: m' =>
      if str_eqb key k then
        if v + 1 <=? u32_max then Ok ((k, v + 1) :: m') else Err P_overflow
      else r <- entry_incr m' key;; Ok ((k, v) :: r)
  end.

(** The loop of [with_alphabet]:
    [for word in ... { *freqmap.entry(word.as_str().to_lowercase()).or_insert(0) += 1; }]. *)
Definition count_words (words : list string) : result freqmap_t :=
  fold_left (fun acc w => m <- acc;; entry_incr m (to_lowercase w)) words (Ok []).

(** [with_alphabet], from the text [std::fs::read_to_string(path)] returned
    (a failing read is the [io] error of [new]/[with_alphabet], outside the
    model). *)
Definition with_alphabet (text : string) (alphabet : string) : result SpellingCorrector :=
  fm <- count_words (find_iter_words text);;
  Ok (mkSpellingCorrector alphabet fm).

(** [new]: [with_alphabet] with the English alphabet. *)
Definition new (text : string) : result SpellingCorrector :=
  with_alphabet text english_alphabet.

End Builder.

(** The number of occurrences of [k] in [l]. *)
Definition count_str (k : string) (l : list string) : nat :=
  List.length (filter (str_eqb k) l).

(** The restriction of [\w] to ASCII: digits, letters and underscore. *)
Definition ascii_is_word_char (c : char) : bool :=
  ((48 <=? c) && (c <=? 57)) || ((65 <=? c) && (c <=? 90)) ||
  ((97 <=? c) && (c <=? 122)) || (c =? 95).

(** The restriction of [str::to_lowercase] to ASCII text. *)
Definition ascii_to_lowercase (s : string) : string :=
  map (fun c => if (65 <=? c) && (c <=? 90) then c + 32 else c) s.

(** * Properties *)

(** ** Strings, the result monad and [HashSet] *)

Lemma str_eqb_spec (a b : string) : str_eqb a b = true <-> a = b.
Proof. unfold str_eqb. destruct (list_eq_dec Z.eq_dec a b); split; congruence. Qed.

Lemma str_eqb_refl (a : string) : str_eqb a a = true.
Proof. apply str_eqb_spec; reflexivity. Qed.

Lemma str_eqb_false (a b : string) : a <> b -> str_eqb a b = false.
Proof. intros H. destruct (str_eqb a b) eqn:E; auto. apply str_eqb_spec in E. contradiction. Qed.

Lemma bind_Ok_inv {A B : Type} (m : result A) (k : A -> result B) (b : B) :
  bind m k = Ok b -> exists a, m = Ok a /\ k a = Ok b.
Proof. destruct m; simpl; [eauto | discriminate]. Qed.

Lemma bind_Err_inv {A B : Type} (m : result A) (k : A -> result B) (e : panic) :
  bind m k = Err e -> m = Err e \/ exists a, m = Ok a /\ k a = Err e.
Proof. destruct m; simpl; intros H; [eauto | inversion H; auto]. Qed.

(** Peels one [x <- m;; k] off a hypothesis [_ = Ok _]. *)
Ltac inv_ok H :=
  let a := fresh "a" in let Hm := fresh "Hm" in
  apply bind_Ok_inv in H; destruct H as (a & Hm & H).

Lemma mapM_Ok_In {A B : Type} (f : A -> result B) (l : list A) (ys : list B) :
  mapM f l = Ok ys -> forall y, In y ys -> exists x, In x l /\ f x = Ok y.
Proof.
  revert ys; induction l as [|x l IH]; simpl; intros ys H y Hy.
  - inversion H; subst; contradiction.
  - inv_ok H. inv_ok H. inversion H; subst.
    destruct Hy as [<-|Hy]; [eauto|].
    destruct (IH _ Hm0 y Hy) as (x' & ? & ?); eauto.
Qed.

Lemma mapM_Ok_length {A B : Type} (f : A -> result B) (l : list A) (ys : list B) :
  mapM f l = Ok ys -> List.length ys = List.length l.
Proof.
  revert ys; induction l as [|x l IH]; simpl; intros ys H.
  - inversion H; reflexivity.
  - inv_ok H. inv_ok H. inversion H; subst. simpl. f_equal. auto.
Qed.

Lemma mapM_Err_In {A B : Type} (f : A -> result B) (l : list A) (e : panic) :
  mapM f l = Err e -> exists x, In x l /\ f x = Err e.
Proof.
  induction l as [|x l IH]; simpl; intros H; [discriminate|].
  apply bind_Err_inv in H as [H|(a & _ & H)]; [eauto|].
  apply bind_Err_inv in H as [H|(b & _ & H)]; [|discriminate].
  destruct (IH H) as (x' & ? & ?); eauto.
Qed.

Lemma hs_insert_In (x : string) (s : list string) (y : string) :
  In y (hs_insert x s) <-> In y s \/ y = x.
Proof.
  unfold hs_insert. destruct (existsb (str_eqb x) s) eqn:E.
  - apply existsb_exists in E as (z & Hz & Hzx). apply str_eqb_spec in Hzx; subst.
    split; [auto | intros [H|H]; subst; auto].
  - rewrite in_app_iff; simpl. split; intros [H|H]; auto; destruct H; auto; contradiction.
Qed.

Lemma fold_hs_In (l s : list string) (y : string) :
  In y (fold_left (fun s x => hs_insert x s) l s) <-> In y s \/ In y l.
Proof.
  revert s; induction l as [|x l IH]; simpl; intros s; [tauto|].
  rewrite IH, hs_insert_In. simpl. intuition (subst; auto).
Qed.

Lemma collect_set_In (l : list string) (y : string) : In y (collect_set l) <-> In y l.
Proof. unfold collect_set. rewrite fold_hs_In. simpl. tauto. Qed.

Lemma fold_hs_length (l s : list string) :
  (List.length (fold_left (fun s x => hs_insert x s) l s) <= List.length s + List.length l)%nat.
Proof.
  revert s; induction l as [|x l IH]; simpl; intros s; [lia|].
  specialize (IH (hs_insert x s)). unfold hs_insert in *.
  destruct (existsb (str_eqb x) s); [lia|]. rewrite length_app in IH. simpl in IH. lia.
Qed.

Lemma collect_set_length (l : list string) : (List.length (collect_set l) <= List.length l)%nat.
Proof. apply fold_hs_length. Qed.

Lemma collect_set_nil (l : list string) : collect_set l = [] <-> l = [].
Proof.
  split; intros H.
  - destruct l as [|x l]; auto. exfalso.
    assert (In x (collect_set (x :: l))) as Hx by (apply collect_set_In; left; auto).
    rewrite H in Hx; contradiction.
  - subst; reflexivity.
Qed.

Lemma collect_set_singleton (w : string) : collect_set [w] = [w].
Proof. reflexivity. Qed.

(** ** Panics of the slicing code *)

(** [r] can only fail with a string-slicing panic. *)
Definition slices_only {A : Type} (r : result A) : Prop :=
  forall e, r = Err e -> e = P_str_index.

Lemma slices_only_Ok {A : Type} (a : A) : slices_only (Ok a).
Proof. intros e H; discriminate. Qed.

Lemma slices_only_bind {A B : Type} (m : result A) (k : A -> result B) :
  slices_only m -> (forall a, slices_only (k a)) -> slices_only (bind m k).
Proof.
  intros Hm Hk e H. apply bind_Err_inv in H as [H|(a & _ & H)]; [apply Hm | apply (Hk a)]; auto.
Qed.

Lemma slices_only_mapM {A B : Type} (f : A -> result B) (l : list A) :
  (forall x, slices_only (f x)) -> slices_only (mapM f l).
Proof.
  intros Hf e H. apply mapM_Err_In in H as (x & _ & H). apply (Hf x); auto.
Qed.

Lemma split_at_byte_slices_only (s : string) (i : nat) : slices_only (split_at_byte s i).
Proof.
  revert i; induction s as [|c s IH]; intros [|i]; simpl;
    try apply slices_only_Ok; try (intros e H; inversion H; reflexivity).
  destruct (Nat.ltb (S i) (len_utf8 c)).
  - intros e H; inversion H; reflexivity.
  - apply slices_only_bind; [apply IH | intros; apply slices_only_Ok].
Qed.

Create HintDb slices.
#[local] Hint Resolve slices_only_Ok slices_only_bind slices_only_mapM
  split_at_byte_slices_only : slices.

Lemma slice_to_slices_only s i : slices_only (slice_to s i).
Proof. unfold slice_to; eauto with slices. Qed.

Lemma slice_from_slices_only s i : slices_only (slice_from s i).
Proof. unfold slice_from; eauto with slices. Qed.

Lemma slice_slices_only s a b : slices_only (slice s a b).
Proof.
  unfold slice. destruct (Nat.leb a b).
  - apply slices_only_bind; [apply slice_from_slices_only | intros; apply slice_to_slices_only].
  - intros e H; inversion H; reflexivity.
Qed.

#[local] Hint Resolve slice_to_slices_only slice_from_slices_only slice_slices_only : slices.

Lemma edits1_slices_only self w : slices_only (edits1 self w).
Proof.
  unfold edits1, splits, deletes, transposes, replaces.
  repeat (apply slices_only_bind || apply slices_only_mapM || intros);
    eauto with slices.
Qed.

#[local] Hint Resolve edits1_slices_only : slices.

Lemma edits2_slices_only iter self w : slices_only (edits2 iter self w).
Proof. unfold edits2. eauto 6 with slices. Qed.

#[local] Hint Resolve edits2_slices_only : slices.

Lemma candidates_slices_only iter self w : slices_only (candidates iter self w).
Proof.
  unfold candidates.
  destruct (negb (Nat.eqb (List.length (known self [w])) 0)); [apply slices_only_Ok|].
  apply slices_only_bind; [auto with slices | intros e1].
  destruct (negb (Nat.eqb (List.length (known self e1)) 0)); [apply slices_only_Ok|].
  apply slices_only_bind; [auto with slices | intros e2].
  destruct (negb (Nat.eqb (List.length (known self e2)) 0)); apply slices_only_Ok.
Qed.

(** ** [known], [candidates] and [correction] *)

Section CorrectorFacts.

Variable iter : list string -> list string.

Lemma known_In self l y :
  In y (known self l) <-> In y l /\ contains_key (freqmap self) y = true.
Proof. unfold known. rewrite collect_set_In, filter_In. tauto. Qed.

Lemma known_single self w :
  known self [w] = if contains_key (freqmap self) w then [w] else [].
Proof. unfold known; simpl. destruct (contains_key _ w); reflexivity. Qed.

Lemma nonempty_test (l : list string) :
  negb (Nat.eqb (List.length l) 0) = match l with [] => false | _ :: _ => true end.
Proof. destruct l; reflexivity. Qed.

(** The four tiers of [candidates], each with the condition that selects it. *)
Lemma candidates_tiers self w :
  (contains_key (freqmap self) w = true -> candidates iter self w = Ok [w]) /\
  (contains_key (freqmap self) w = false ->
   forall e1, edits1 self w = Ok e1 -> known self e1 <> [] ->
   candidates iter self w = Ok (known self e1)) /\
  (contains_key (freqmap self) w = false ->
   forall e1, edits1 self w = Ok e1 -> known self e1 = [] ->
   forall e2, edits2 iter self w = Ok e2 -> known self e2 <> [] ->
   candidates iter self w = Ok (known self e2)) /\
  (contains_key (freqmap self) w = false ->
   forall e1, edits1 self w = Ok e1 -> known self e1 = [] ->
   forall e2, edits2 iter self w = Ok e2 -> known self e2 = [] ->
   candidates iter self w = Ok [w]).
Proof.
  unfold candidates. rewrite known_single, !nonempty_test.
  repeat split; intros Hw; rewrite Hw; [reflexivity| | |];
    intros e1 He1 Hk1; rewrite He1; cbn [bind];
    [destruct (known self e1); [congruence | reflexivity] | |];
    rewrite Hk1; intros e2 He2 Hk2; rewrite He2; cbn [bind];
    [destruct (known self e2); [congruence | reflexivity] | rewrite Hk2; reflexivity].
Qed.

(** Every set [candidates] returns is the singleton of the input or holds
    known words only. *)
Lemma candidates_members self w cs :
  candidates iter self w = Ok cs ->
  cs = [w] \/ (forall x, In x cs -> contains_key (freqmap self) x = true).
Proof.
  unfold candidates. rewrite known_single, !nonempty_test. intros H.
  destruct (contains_key (freqmap self) w) eqn:Hw; [inversion H; auto|].
  inv_ok H. destruct (known self a) eqn:Hk1.
  - inv_ok H. destruct (known self a0) eqn:Hk2.
    + inversion H; auto.
    + inversion H; subst. right. intros x Hx. rewrite <- Hk2 in Hx.
      apply known_In in Hx; tauto.
  - inversion H; subst. right. intros x Hx. rewrite <- Hk1 in Hx.
    apply known_In in Hx; tauto.
Qed.

Lemma candidates_nonempty self w cs : candidates iter self w = Ok cs -> cs <> [].
Proof.
  unfold candidates. rewrite known_single, !nonempty_test. intros H.
  destruct (contains_key (freqmap self) w); [inversion H; discriminate|].
  inv_ok H. destruct (known self a) eqn:Hk1.
  - inv_ok H. destruct (known self a0); inversion H; discriminate.
  - inversion H; discriminate.
Qed.

Lemma max_by_fold_In self acc l r :
  max_by_fold self acc l = Ok r -> r = acc \/ In r l.
Proof.
  revert acc; induction l as [|y l IH]; simpl; intros acc H.
  - inversion H; auto.
  - inv_ok H. destruct a; apply IH in H; simpl; intuition.
Qed.

Lemma max_by_In self l r : max_by self l = Ok (Some r) -> In r l.
Proof.
  destruct l as [|x l]; simpl; intros H; [discriminate|].
  inv_ok H. inversion H; subst. apply max_by_fold_In in Hm.
  destruct Hm as [->|Hm]; [left | right]; auto.
Qed.

Lemma sum_u32_fold_overflow_only (vs : list Z) (acc : result Z) :
  (forall e, acc = Err e -> e = P_overflow) ->
  forall e, fold_left (fun acc v => s <- acc;;
                         if s + v <=? u32_max then Ok (s + v) else Err P_overflow)
                      vs acc = Err e -> e = P_overflow.
Proof.
  revert acc; induction vs as [|v vs IH]; simpl; intros acc Hacc e H; [auto|].
  eapply IH; [|exact H].
  intros e' He'. destruct acc as [s|e0]; simpl in He'.
  - destruct (s + v <=? u32_max); inversion He'; auto.
  - inversion He'; subst; auto.
Qed.

Lemma p_key_errors self x e :
  contains_key (freqmap self) x = true -> p self x = Err e -> e = P_overflow.
Proof.
  unfold p, index, contains_key. destruct (lookup (freqmap self) x); [|discriminate].
  intros _ H. cbn [bind] in H. apply bind_Err_inv in H as [H|(t & _ & H)]; [|discriminate].
  revert H. apply sum_u32_fold_overflow_only. intros e' He'; discriminate.
Qed.

Lemma cmp_p_key_errors self a b e :
  contains_key (freqmap self) a = true -> contains_key (freqmap self) b = true ->
  cmp_p self a b = Err e -> e <> P_map_index.
Proof.
  intros Ha Hb H. unfold cmp_p in H.
  apply bind_Err_inv in H as [H|(pa & _ & H)].
  { apply p_key_errors in H; [congruence | auto]. }
  apply bind_Err_inv in H as [H|(pb & _ & H)].
  { apply p_key_errors in H; [congruence | auto]. }
  destruct (PrimFloat.compare pa pb); inversion H; discriminate.
Qed.

Lemma max_by_fold_key_errors self acc l e :
  (forall x, In x (acc :: l) -> contains_key (freqmap self) x = true) ->
  max_by_fold self acc l = Err e -> e <> P_map_index.
Proof.
  revert acc; induction l as [|y l IH]; simpl; intros acc Hk H; [discriminate|].
  apply bind_Err_inv in H as [H|(o & _ & H)].
  - apply (cmp_p_key_errors self acc y); auto with datatypes.
  - destruct o; apply IH in H; auto; intros x [Hx|Hx]; subst; auto with datatypes.
Qed.

Hypothesis iter_perm : forall l, Permutation (iter l) l.

Lemma iter_single (w : string) : iter [w] = [w].
Proof. apply Permutation_length_1_inv, Permutation_sym, iter_perm. Qed.

Lemma correction_in_candidates self w r :
  correction iter self w = Ok r -> exists cs, candidates iter self w = Ok cs /\ In r cs.
Proof.
  unfold correction. intros H. inv_ok H. inv_ok H. destruct a0 as [m|]; [|discriminate].
  inversion H; subst. apply max_by_In in Hm0.
  exists a; split; auto. eapply Permutation_in; [apply iter_perm | exact Hm0].
Qed.

Lemma lookup_In (m : freqmap_t) k v : lookup m k = Some v -> In (k, v) m.
Proof.
  induction m as [|[k' v'] m IH]; simpl; [discriminate|].
  destruct (str_eqb k k') eqn:E; intros H.
  - apply str_eqb_spec in E. inversion H; subst. auto.
  - auto.
Qed.

(** C1 (as amended): [correction] is a total function of the model; when it
    returns, its result is non-empty whenever the input is non-empty (for a
    table without an empty key, as the builder's tables are), and it is the
    input itself when the input is unknown and no known word lies in
    [edits1] or [edits2] of it. *)
Theorem correction_nonempty_or_input self w r :
  (forall k v, In (k, v) (freqmap self) -> k <> []) ->
  correction iter self w = Ok r ->
  (w <> [] -> r <> []) /\
  (contains_key (freqmap self) w = false ->
   forall e1, edits1 self w = Ok e1 -> known self e1 = [] ->
   forall e2, edits2 iter self w = Ok e2 -> known self e2 = [] -> r = w).
Proof.
  intros Hkeys H. destruct (correction_in_candidates _ _ _ H) as (cs & Hc & Hr). split.
  - intros Hw. destruct (candidates_members _ _ _ Hc) as [->|Hk].
    + destruct Hr as [<-|[]]; auto.
    + specialize (Hk r Hr). unfold contains_key in Hk.
      destruct (lookup (freqmap self) r) as [v|] eqn:Hl; [|discriminate].
      apply (Hkeys r v), lookup_In, Hl.
  - intros Hw e1 He1 Hk1 e2 He2 Hk2.
    rewrite (proj2 (proj2 (proj2 (candidates_tiers self w))) Hw e1 He1 Hk1 e2 He2 Hk2) in Hc.
    inversion Hc; subst. destruct Hr as [<-|[]]; auto.
Qed.

(** C2: a word present as a key of the frequency table is its own correction. *)
Theorem correction_known_word self w :
  contains_key (freqmap self) w = true -> correction iter self w = Ok w.
Proof.
  intros H. unfold correction. rewrite (proj1 (candidates_tiers self w) H). cbn [bind].
  rewrite iter_single. reflexivity.
Qed.

(** C3: [candidates] is the four-tier waterfall: [{word}] for a known word,
    else the known part of [edits1 word] if non-empty, else the known part of
    [edits2 word] if non-empty, else [{word}]; a tier that applies returns
    without computing the later ones (so a panic of a later tier cannot
    happen), and every returned set is non-empty. *)
Theorem candidates_waterfall self w :
  ((contains_key (freqmap self) w = true -> candidates iter self w = Ok [w]) /\
   (contains_key (freqmap self) w = false ->
    forall e1, edits1 self w = Ok e1 -> known self e1 <> [] ->
    candidates iter self w = Ok (known self e1)) /\
   (contains_key (freqmap self) w = false ->
    forall e1, edits1 self w = Ok e1 -> known self e1 = [] ->
    forall e2, edits2 iter self w = Ok e2 -> known self e2 <> [] ->
    candidates iter self w = Ok (known self e2)) /\
   (contains_key (freqmap self) w = false ->
    forall e1, edits1 self w = Ok e1 -> known self e1 = [] ->
    forall e2, edits2 iter self w = Ok e2 -> known self e2 = [] ->
    candidates iter self w = Ok [w])) /\
  (forall cs, candidates iter self w = Ok cs -> cs <> []).
Proof. split; [apply candidates_tiers | apply candidates_nonempty]. Qed.

(** C8: the probability [p] is only evaluated on known words during
    [correction]: the sets of tiers 1 to 3 hold known words only, the tier-4
    singleton is never compared, so [correction] never panics on the lookup
    [self.freqmap[word]] of [p]. *)
Theorem correction_scores_known_only self w :
  (forall cs, candidates iter self w = Ok cs ->
   cs = [w] \/ (forall x, In x cs -> contains_key (freqmap self) x = true)) /\
  correction iter self w <> Err P_map_index.
Proof.
  split; [apply candidates_members|].
  unfold correction. intros H.
  destruct (candidates iter self w) as [cs|e] eqn:Hc; cbn [bind] in H.
  2: { inversion H; subst. apply (candidates_slices_only iter self w) in Hc. discriminate. }
  destruct (candidates_members _ _ _ Hc) as [->|Hk].
  - rewrite iter_single in H. simpl in H. discriminate.
  - destruct (iter cs) as [|x l] eqn:Hi; simpl in H; [discriminate|].
    apply bind_Err_inv in H as [H|(m & _ & H)]; [|destruct m; discriminate].
    apply bind_Err_inv in H as [H|(m & _ & H)]; [|discriminate].
    apply max_by_fold_key_errors in H; [apply H; reflexivity|].
    intros y Hy. apply Hk. rewrite <- Hi in Hy.
    eapply Permutation_in; [apply iter_perm | exact Hy].
Qed.

(** C9: the result of [correction] is the input word or a key of the
    frequency table. *)
Theorem correction_known_or_input self w r :
  correction iter self w = Ok r -> r = w \/ contains_key (freqmap self) r = true.
Proof.
  intros H. destruct (correction_in_candidates _ _ _ H) as (cs & Hc & Hr).
  destruct (candidates_members _ _ _ Hc) as [->|Hk]; [left | right; auto].
  destruct Hr as [<-|[]]; auto.
Qed.

End CorrectorFacts.

(** ** [edits1] on ASCII words *)

(** Every character is one byte long. *)
Definition ascii_str (s : string) : Prop := Forall (fun c => len_utf8 c = 1%nat) s.

Lemma len_utf8_pos (c : char) : (1 <= len_utf8 c)%nat.
Proof. unfold len_utf8. repeat destruct (_ <? _); lia. Qed.

Lemma ascii_str_len (s : string) : ascii_str s -> str_len s = List.length s.
Proof. induction 1 as [|c s Hc _ IH]; simpl; [reflexivity | rewrite Hc, IH; reflexivity]. Qed.

Lemma ascii_skipn (s : string) (i : nat) : ascii_str s -> ascii_str (skipn i s).
Proof.
  intros Hs; unfold ascii_str in *; revert i;
  induction Hs as [|c s Hc Hs IH]; intros [|i]; simpl; auto using Forall_nil, Forall_cons.
Qed.

Lemma ascii_firstn (s : string) (i : nat) : ascii_str s -> ascii_str (firstn i s).
Proof.
  intros Hs; unfold ascii_str in *; revert i;
  induction Hs as [|c s Hc Hs IH]; intros [|i]; simpl; auto using Forall_nil, Forall_cons.
Qed.

(** On an ASCII string every byte offset up to the length is a boundary. *)
Lemma ascii_split (s : string) (i : nat) :
  ascii_str s ->
  split_at_byte s i =
  if Nat.leb i (List.length s) then Ok (firstn i s, skipn i s) else Err P_str_index.
Proof.
  intros Hs; revert i; induction Hs as [|c s Hc Hs IH]; intros [|i]; simpl; auto.
  rewrite Hc. simpl. rewrite Nat.sub_0_r, IH.
  destruct (Nat.leb i (List.length s)); reflexivity.
Qed.

(** Conversely, a string split successfully at every offset is ASCII. *)
Lemma split_everywhere_ascii (s : string) :
  (forall i, (i <= str_len s)%nat -> exists lr, split_at_byte s i = Ok lr) -> ascii_str s.
Proof.
  induction s as [|c s IH]; intros H; [constructor|].
  assert (len_utf8 c = 1%nat) as Hc.
  { pose proof (len_utf8_pos c).
    destruct (H 1%nat) as (lr & Hlr); [simpl; lia|].
    simpl in Hlr. destruct (Nat.ltb_spec 1 (len_utf8 c)); [discriminate|lia]. }
  constructor; [exact Hc|].
  apply IH. intros i Hi. destruct (H (S i)) as (lr & Hlr); [simpl; lia|].
  simpl in Hlr. rewrite Hc in Hlr. simpl in Hlr. rewrite Nat.sub_0_r in Hlr.
  inv_ok Hlr. eauto.
Qed.

Lemma mapM_Ok_all {A B : Type} (f : A -> result B) (l : list A) (ys : list B) :
  mapM f l = Ok ys -> forall x, In x l -> exists y, f x = Ok y.
Proof.
  revert ys; induction l as [|x l IH]; simpl; intros ys H z Hz; [contradiction|].
  inv_ok H. inv_ok H. destruct Hz as [<-|Hz]; eauto.
Qed.

Lemma mapM_Ok_map {A B : Type} (f : A -> result B) (g : A -> B) (l : list A) :
  (forall x, In x l -> f x = Ok (g x)) -> mapM f l = Ok (map g l).
Proof.
  induction l as [|x l IH]; simpl; intros H; [reflexivity|].
  rewrite H by auto. cbn [bind]. rewrite IH by auto. reflexivity.
Qed.

(** The splits of a word, as [(&word[..i], &word[i..])] for [i] in [0..=len]. *)
Definition ascii_splits (w : string) : list (string * string) :=
  map (fun i => (firstn i w, skipn i w)) (List.seq 0 (S (List.length w))).

Lemma splits_Ok (w : string) (sp : list (string * string)) :
  splits w = Ok sp -> ascii_str w /\ sp = ascii_splits w.
Proof.
  unfold splits. intros H.
  assert (ascii_str w) as Hw.
  { apply split_everywhere_ascii. intros i Hi.
    destruct (mapM_Ok_all _ _ _ H i) as (y & Hy); [apply in_seq; lia|].
    unfold slice_to in Hy. destruct (split_at_byte w i) as [lr|e]; [eauto | discriminate]. }
  split; auto.
  rewrite ascii_str_len in H by exact Hw.
  rewrite mapM_Ok_map with (g := fun i => (firstn i w, skipn i w)) in H.
  - inversion H; reflexivity.
  - intros i Hi. apply in_seq in Hi. unfold slice_to, slice_from.
    rewrite ascii_split by exact Hw.
    destruct (Nat.leb_spec i (List.length w)); [reflexivity | lia].
Qed.

Lemma In_ascii_splits (w : string) (lr : string * string) :
  In lr (ascii_splits w) ->
  exists i, (i <= List.length w)%nat /\ lr = (firstn i w, skipn i w).
Proof.
  unfold ascii_splits. intros H. apply in_map_iff in H as (i & <- & Hi).
  apply in_seq in Hi. exists i; split; [lia | reflexivity].
Qed.

Lemma ascii_slice_from (r : string) (i : nat) (r1 : string) :
  ascii_str r -> slice_from r i = Ok r1 -> r1 = skipn i r /\ (i <= List.length r)%nat.
Proof.
  intros Hr H. unfold slice_from in H. rewrite ascii_split in H by exact Hr.
  destruct (Nat.leb_spec i (List.length r)); [inversion H; auto | discriminate].
Qed.

Lemma ascii_slice_to (r : string) (i : nat) (r1 : string) :
  ascii_str r -> slice_to r i = Ok r1 -> r1 = firstn i r /\ (i <= List.length r)%nat.
Proof.
  intros Hr H. unfold slice_to in H. rewrite ascii_split in H by exact Hr.
  destruct (Nat.leb_spec i (List.length r)); [inversion H; auto | discriminate].
Qed.

Lemma ascii_slice (r : string) (a b : nat) (x : string) :
  ascii_str r -> slice r a b = Ok x ->
  List.length x = (b - a)%nat /\ (a <= b)%nat /\ (b <= List.length r)%nat.
Proof.
  intros Hr H. unfold slice in H. destruct (Nat.leb_spec a b); [|discriminate].
  inv_ok H. apply ascii_slice_from in Hm as [-> Ha]; auto.
  apply ascii_slice_to in H as [-> Hb]; [|apply ascii_skipn; auto].
  rewrite length_firstn. rewrite length_skipn in *. lia.
Qed.

(** Length of the [concat] of lists of one common length. *)
Lemma length_concat_uniform {A : Type} (ls : list (list A)) (k : nat) :
  (forall y, In y ls -> List.length y = k) -> List.length (List.concat ls) = (k * List.length ls)%nat.
Proof.
  induction ls as [|y ls IH]; simpl; intros H; [lia|].
  rewrite length_app, H, IH by auto. lia.
Qed.

Lemma length_filter_map {A B : Type} (f : B -> bool) (g : A -> B) (l : list A) :
  List.length (filter f (map g l)) = List.length (filter (fun x => f (g x)) l).
Proof. induction l as [|x l IH]; simpl; [reflexivity|]. destruct (f (g x)); simpl; auto. Qed.

Lemma length_filter_seq_last (f : nat -> bool) (n : nat) :
  f n = false -> (List.length (filter f (List.seq 0 (S n))) <= n)%nat.
Proof.
  intros Hn. rewrite seq_S, filter_app, length_app. replace (0 + n)%nat with n by lia.
  cbn [filter]. rewrite Hn. cbn [List.length].
  pose proof (filter_length_le f (List.seq 0 n)). rewrite length_seq in H. lia.
Qed.

Lemma length_filter_seq_last2 (f : nat -> bool) (n : nat) :
  f n = false -> f (n - 1)%nat = false ->
  (List.length (filter f (List.seq 0 (S n))) <= n - 1)%nat.
Proof.
  intros Hn Hn1. destruct n as [|m].
  - simpl. rewrite Hn. simpl. lia.
  - rewrite seq_S, filter_app, length_app. replace (0 + S m)%nat with (S m) by lia.
    cbn [filter]. rewrite Hn. cbn [List.length].
    replace (S m - 1)%nat with m in Hn1 by lia.
    pose proof (length_filter_seq_last f m Hn1). lia.
Qed.

Lemma ascii_skipn_str_len (w : string) (i : nat) :
  ascii_str w -> str_len (skipn i w) = (List.length w - i)%nat.
Proof. intros Hw. rewrite ascii_str_len by (apply ascii_skipn; auto). apply length_skipn. Qed.

(** How many splits have a non-empty right part, and how many a right
    part longer than one byte. *)
Lemma count_nonempty_splits (w : string) :
  ascii_str w ->
  (List.length (filter (fun lr => negb (Nat.eqb (str_len (snd lr)) 0)) (ascii_splits w))
   <= List.length w)%nat.
Proof.
  intros Hw. unfold ascii_splits. rewrite length_filter_map.
  apply length_filter_seq_last. simpl. rewrite ascii_skipn_str_len by auto.
  rewrite Nat.sub_diag. reflexivity.
Qed.

Lemma count_long_splits (w : string) :
  ascii_str w ->
  (List.length (filter (fun lr => Nat.ltb 1 (str_len (snd lr))) (ascii_splits w))
   <= List.length w - 1)%nat.
Proof.
  intros Hw. unfold ascii_splits. rewrite length_filter_map.
  apply length_filter_seq_last2; simpl; rewrite ascii_skipn_str_len by auto;
    apply Nat.ltb_ge; lia.
Qed.

Lemma edits1_parts self w s :
  edits1 self w = Ok s ->
  ascii_str w /\
  exists d t r, deletes (ascii_splits w) = Ok d /\ transposes (ascii_splits w) = Ok t /\
    replaces self (ascii_splits w) = Ok r /\
    s = collect_set (d ++ t ++ r ++ inserts self (ascii_splits w)).
Proof.
  unfold edits1. intros H. inv_ok H. apply splits_Ok in Hm as [Hw ->].
  inv_ok H. inv_ok H. inv_ok H. inversion H; subst. split; [exact Hw|]. eauto 7.
Qed.

Ltac len_arith :=
  cbn [Datatypes.length] in *;
  rewrite ?length_app, ?length_firstn, ?length_skipn in *; cbn [Datatypes.length] in *;
  rewrite ?length_app, ?length_firstn, ?length_skipn in *; lia.

Lemma deletes_lengths w d :
  ascii_str w -> deletes (ascii_splits w) = Ok d ->
  forall x, In x d -> (List.length x + 1 = List.length w)%nat.
Proof.
  intros Hw H x Hx. unfold deletes in H.
  destruct (mapM_Ok_In _ _ _ H x Hx) as (lr & Hlr & Hf).
  apply filter_In in Hlr as [Hlr _]. destruct (In_ascii_splits _ _ Hlr) as (i & Hi & ->).
  cbn [fst snd] in Hf. inv_ok Hf. inversion Hf; subst.
  apply ascii_slice_from in Hm as [-> H1]; [|apply ascii_skipn; auto].
  len_arith.
Qed.

Lemma transposes_lengths w t :
  ascii_str w -> transposes (ascii_splits w) = Ok t ->
  forall x, In x t -> List.length x = List.length w.
Proof.
  intros Hw H x Hx. unfold transposes in H.
  destruct (mapM_Ok_In _ _ _ H x Hx) as (lr & Hlr & Hf).
  apply filter_In in Hlr as [Hlr _]. destruct (In_ascii_splits _ _ Hlr) as (i & Hi & ->).
  cbn [fst snd] in Hf. inv_ok Hf. inv_ok Hf. inv_ok Hf. inversion Hf; subst.
  pose proof (ascii_skipn w i Hw) as Hr.
  apply ascii_slice in Hm as (Ha & _ & H2); auto.
  apply ascii_slice in Hm0 as (Hb & _ & _); auto.
  apply ascii_slice_from in Hm1 as [-> _]; auto.
  rewrite length_skipn in *. len_arith.
Qed.

Lemma replaces_lengths self w r :
  ascii_str w -> replaces self (ascii_splits w) = Ok r ->
  forall x, In x r -> List.length x = List.length w.
Proof.
  intros Hw H x Hx. unfold replaces in H. inv_ok H. inversion H; subst.
  apply in_concat in Hx as (y & Hy & Hx).
  destruct (mapM_Ok_In _ _ _ Hm y Hy) as (lr & Hlr & Hf).
  apply filter_In in Hlr as [Hlr _]. destruct (In_ascii_splits _ _ Hlr) as (i & Hi & ->).
  destruct (mapM_Ok_In _ _ _ Hf x Hx) as (c & _ & Hc).
  cbn [fst snd] in Hc. inv_ok Hc. inversion Hc; subst.
  apply ascii_slice_from in Hm0 as [-> H1]; [|apply ascii_skipn; auto].
  len_arith.
Qed.

Lemma inserts_lengths self w :
  forall x, In x (inserts self (ascii_splits w)) -> List.length x = S (List.length w).
Proof.
  intros x Hx. unfold inserts in Hx. apply in_concat in Hx as (y & Hy & Hx).
  apply in_map_iff in Hy as (lr & <- & Hlr). apply in_map_iff in Hx as (c & <- & _).
  destruct (In_ascii_splits _ _ Hlr) as (i & Hi & ->). cbn [fst snd]. len_arith.
Qed.

Lemma replaces_count self w r :
  replaces self (ascii_splits w) = Ok r ->
  List.length r =
  (List.length (alphabet self) *
   List.length (filter (fun lr => negb (Nat.eqb (str_len (snd lr)) 0)) (ascii_splits w)))%nat.
Proof.
  unfold replaces. intros H. inv_ok H. inversion H; subst.
  rewrite (length_concat_uniform _ (List.length (alphabet self))).
  - f_equal. exact (mapM_Ok_length _ _ _ Hm).
  - intros y Hy. destruct (mapM_Ok_In _ _ _ Hm y Hy) as (lr & _ & Hf).
    apply (mapM_Ok_length _ _ _ Hf).
Qed.

Lemma inserts_count self w :
  List.length (inserts self (ascii_splits w)) =
  (List.length (alphabet self) * S (List.length w))%nat.
Proof.
  unfold inserts. rewrite (length_concat_uniform _ (List.length (alphabet self))).
  - unfold ascii_splits. rewrite !length_map, length_seq. reflexivity.
  - intros y Hy. apply in_map_iff in Hy as (lr & <- & _). apply length_map.
Qed.

(** C6 (as amended): whenever [edits1 word] returns, it has at most
    [len + (2 len + 1) |alphabet| + max(len - 1, 0)] elements (natural-number
    subtraction), and each generated string has [len - 1], [len] or [len + 1]
    characters. *)
Theorem edits1_size_and_lengths self w s :
  edits1 self w = Ok s ->
  (List.length s <= List.length w + (2 * List.length w + 1) * List.length (alphabet self)
                    + (List.length w - 1))%nat /\
  (forall x, In x s ->
   List.length x + 1 = List.length w \/ List.length x = List.length w \/
   List.length x = List.length w + 1)%nat.
Proof.
  intros H. destruct (edits1_parts _ _ _ H) as (Hw & d & t & r & Hd & Ht & Hr & ->). split.
  - eapply Nat.le_trans; [apply collect_set_length|].
    assert (Ld : (List.length d <= List.length w)%nat).
    { rewrite (mapM_Ok_length _ _ _ Hd). apply count_nonempty_splits; auto. }
    assert (Lt : (List.length t <= List.length w - 1)%nat).
    { rewrite (mapM_Ok_length _ _ _ Ht). apply count_long_splits; auto. }
    assert (Lr : (List.length r <= List.length (alphabet self) * List.length w)%nat).
    { rewrite (replaces_count _ _ _ Hr). apply Nat.mul_le_mono_l.
      apply count_nonempty_splits; auto. }
    rewrite !length_app, inserts_count. nia.
  - intros x Hx. rewrite collect_set_In, !in_app_iff in Hx.
    destruct Hx as [Hx|[Hx|[Hx|Hx]]].
    + left. apply (deletes_lengths w d Hw Hd x Hx).
    + right; left. apply (transposes_lengths w t Hw Ht x Hx).
    + right; left. apply (replaces_lengths self w r Hw Hr x Hx).
    + right; right. rewrite (inserts_lengths self w x Hx). lia.
Qed.

(** C7: [edits1 ""] is exactly the set of the one-character strings of the
    alphabet (no deletion, transposition or replacement applies), and
    [candidates ""] then follows the tiers as for any other word. *)
Theorem edits1_empty_word iter self :
  edits1 self [] = Ok (collect_set (map (fun c => [c]) (alphabet self))) /\
  (contains_key (freqmap self) [] = true -> candidates iter self [] = Ok [[]]) /\
  (contains_key (freqmap self) [] = false ->
   known self (collect_set (map (fun c => [c]) (alphabet self))) <> [] ->
   candidates iter self [] = Ok (known self (collect_set (map (fun c => [c]) (alphabet self))))) /\
  (contains_key (freqmap self) [] = false ->
   known self (collect_set (map (fun c => [c]) (alphabet self))) = [] ->
   forall e2, edits2 iter self [] = Ok e2 -> known self e2 <> [] ->
   candidates iter self [] = Ok (known self e2)) /\
  (contains_key (freqmap self) [] = false ->
   known self (collect_set (map (fun c => [c]) (alphabet self))) = [] ->
   forall e2, edits2 iter self [] = Ok e2 -> known self e2 = [] ->
   candidates iter self [] = Ok [[]]).
Proof.
  assert (E : edits1 self [] = Ok (collect_set (map (fun c => [c]) (alphabet self)))).
  { unfold edits1, splits, deletes, transposes, replaces, inserts. simpl.
    rewrite app_nil_r. reflexivity. }
  destruct (candidates_tiers iter self []) as (T1 & T2 & T3 & T4).
  split; [exact E|]. split; [exact T1|]. split; [|split].
  - intros Hw Hk. exact (T2 Hw _ E Hk).
  - intros Hw Hk. exact (T3 Hw _ E Hk).
  - intros Hw Hk. exact (T4 Hw _ E Hk).
Qed.

(** ** The probability [p] *)

Lemma sum_u32_fold_Ok (vs : list Z) (acc : Z) :
  0 <= acc -> Forall (fun v => 0 <= v) vs -> acc + fold_right Z.add 0 vs <= u32_max ->
  fold_left (fun acc v => s <- acc;;
               if s + v <=? u32_max then Ok (s + v) else Err P_overflow)
            vs (Ok acc) = Ok (acc + fold_right Z.add 0 vs).
Proof.
  revert acc; induction vs as [|v vs IH]; simpl; intros acc Ha Hv Hs.
  - f_equal; lia.
  - inversion Hv as [|? ? Hv0 Hvs]; subst.
    assert (0 <= fold_right Z.add 0 vs).
    { clear -Hvs. induction Hvs; simpl; lia. }
    destruct (Z.leb_spec (acc + v) u32_max); [|lia].
    rewrite IH; [f_equal; lia | lia | exact Hvs | lia].
Qed.

(** C5 (as amended): for a word of the table with count [c], when the sum of
    all counts fits in a [u32], [p word] is the [f64] quotient of [c] by that
    sum; for a word absent from the table [p] panics. *)
Theorem p_value self w :
  Forall (fun kv => 0 <= snd kv <= u32_max) (freqmap self) ->
  (forall c, lookup (freqmap self) w = Some c ->
   fold_right Z.add 0 (map snd (freqmap self)) <= u32_max ->
   p self w = Ok (PrimFloat.div (f64_from_u32 c)
                                (f64_from_u32 (fold_right Z.add 0 (map snd (freqmap self)))))) /\
  (lookup (freqmap self) w = None -> p self w = Err P_map_index).
Proof.
  intros Hu. unfold p, index. split.
  - intros c Hc Hs. rewrite Hc. cbn [bind]. unfold sum_u32.
    rewrite sum_u32_fold_Ok; [reflexivity | lia | | lia].
    apply Forall_map. eapply Forall_impl; [|exact Hu]. intros kv H; simpl in H; lia.
  - intros Hn. rewrite Hn. reflexivity.
Qed.

(** ** The builder *)

Lemma entry_incr_lookup (m m' : freqmap_t) (key : string) :
  entry_incr m key = Ok m' ->
  forall k, lookup m' k =
    if str_eqb k key
    then Some (match lookup m key with Some v => v + 1 | None => 1 end)
    else lookup m k.
Proof.
  revert m'; induction m as [|[k' v] m IH]; simpl; intros m' H k.
  - inversion H; subst. simpl. destruct (str_eqb k key); reflexivity.
  - destruct (str_eqb key k') eqn:E.
    + apply str_eqb_spec in E; subst k'.
      destruct (v + 1 <=? u32_max); inversion H; subst. simpl.
      destruct (str_eqb k key); reflexivity.
    + inv_ok H. inversion H; subst. simpl. rewrite (IH _ Hm k).
      destruct (str_eqb k k') eqn:E1; [|reflexivity].
      apply str_eqb_spec in E1; subst k'.
      destruct (str_eqb k key) eqn:E2; [|reflexivity].
      apply str_eqb_spec in E2; subst. rewrite str_eqb_refl in E; discriminate.
Qed.

Lemma entry_incr_keys (m m' : freqmap_t) (key : string) :
  entry_incr m key = Ok m' ->
  forall k, In k (map fst m') -> In k (map fst m) \/ k = key.
Proof.
  revert m'; induction m as [|[k' v] m IH]; simpl; intros m' H k Hk.
  - inversion H; subst. simpl in Hk. destruct Hk as [<-|[]]; auto.
  - destruct (str_eqb key k') eqn:E.
    + destruct (v + 1 <=? u32_max); inversion H; subst. simpl in Hk. tauto.
    + inv_ok H. inversion H; subst. simpl in Hk.
      destruct Hk as [<-|Hk]; [auto|]. destruct (IH _ Hm k Hk); auto.
Qed.

Lemma entry_incr_nodup (m m' : freqmap_t) (key : string) :
  NoDup (map fst m) -> entry_incr m key = Ok m' -> NoDup (map fst m').
Proof.
  revert m'; induction m as [|[k' v] m IH]; simpl; intros m' Hnd H.
  - inversion H; subst. simpl. constructor; [intros []|constructor].
  - inversion Hnd as [|? ? Hk' Hnd']; subst.
    destruct (str_eqb key k') eqn:E.
    + destruct (v + 1 <=? u32_max); inversion H; subst. simpl. constructor; auto.
    + inv_ok H. inversion H; subst. simpl. constructor; [|apply IH; auto].
      intros Hin. destruct (entry_incr_keys _ _ _ Hm k' Hin) as [Hin'|<-]; [contradiction|].
      rewrite str_eqb_refl in E; discriminate.
Qed.

Lemma entry_incr_Ok (m : freqmap_t) (key : string) :
  (forall v, lookup m key = Some v -> v + 1 <= u32_max) -> exists m', entry_incr m key = Ok m'.
Proof.
  induction m as [|[k' v] m IH]; cbn [lookup entry_incr]; intros H; [eauto|].
  destruct (str_eqb key k') eqn:E.
  - try rewrite E in H. specialize (H v eq_refl).
    destruct (Z.leb_spec (v + 1) u32_max); [eauto | lia].
  - try rewrite E in H. destruct (IH H) as (m' & Hm'). rewrite Hm'. simpl. eauto.
Qed.

(** The loop of [with_alphabet] over already lowercased keys. *)
Definition incr_fold (keys : list string) (acc : result freqmap_t) : result freqmap_t :=
  fold_left (fun acc k => m <- acc;; entry_incr m k) keys acc.

(** The table [m] has distinct keys and holds [f k] for each key with
    [f k > 0], and nothing else. *)
Definition counts_rep (m : freqmap_t) (f : string -> nat) : Prop :=
  NoDup (map fst m) /\
  forall k, lookup m k = if Nat.eqb (f k) 0 then None else Some (Z.of_nat (f k)).

Lemma count_words_incr_fold (low : string -> string) (words : list string) :
  count_words low words = incr_fold (map low words) (Ok []).
Proof.
  unfold count_words, incr_fold.
  assert (G : forall acc : result freqmap_t,
    fold_left (fun acc w => m <- acc;; entry_incr m (low w)) words acc =
    fold_left (fun acc k => m <- acc;; entry_incr m k) (map low words) acc).
  { induction words as [|w ws IH]; intros acc; [reflexivity|]. apply IH. }
  apply G.
Qed.

Lemma incr_fold_Err (keys : list string) (e : panic) : incr_fold keys (Err e) = Err e.
Proof. unfold incr_fold. induction keys; simpl; auto. Qed.

Lemma count_str_cons (k k0 : string) (l : list string) :
  count_str k (k0 :: l) = ((if str_eqb k k0 then 1 else 0) + count_str k l)%nat.
Proof. unfold count_str. simpl. destruct (str_eqb k k0); reflexivity. Qed.

Lemma counts_rep_ext (m : freqmap_t) (f g : string -> nat) :
  (forall k, f k = g k) -> counts_rep m f -> counts_rep m g.
Proof. intros E [Hnd Hl]. split; auto. intros k. rewrite <- E. apply Hl. Qed.

Lemma counts_rep_incr (m m' : freqmap_t) (f : string -> nat) (key : string) :
  counts_rep m f -> entry_incr m key = Ok m' ->
  counts_rep m' (fun k => ((if str_eqb k key then 1 else 0) + f k)%nat).
Proof.
  intros [Hnd Hl] H. split; [eapply entry_incr_nodup; eauto|].
  intros k. rewrite (entry_incr_lookup _ _ _ H k).
  destruct (str_eqb k key) eqn:E; [|apply Hl].
  apply str_eqb_spec in E; subst k. rewrite Hl. simpl.
  destruct (Nat.eqb_spec (f key) 0) as [->|]; [reflexivity|]. f_equal. lia.
Qed.

Lemma incr_fold_spec (keys : list string) (m : freqmap_t) (f : string -> nat) :
  counts_rep m f ->
  (forall k, Z.of_nat (f k + count_str k keys) <= u32_max) ->
  exists m', incr_fold keys (Ok m) = Ok m' /\
             counts_rep m' (fun k => (f k + count_str k keys)%nat).
Proof.
  unfold incr_fold. revert m f; induction keys as [|k0 keys IH]; intros m f Hr Hb; simpl.
  - exists m. split; auto. eapply counts_rep_ext; [|exact Hr]. intros k; unfold count_str; simpl; lia.
  - destruct (entry_incr_Ok m k0) as (m1 & Hm1).
    { intros v Hv. destruct Hr as [_ Hl]. rewrite Hl in Hv.
      specialize (Hb k0). rewrite count_str_cons, str_eqb_refl in Hb.
      destruct (Nat.eqb (f k0) 0); inversion Hv; subst. lia. }
    rewrite Hm1. cbn [bind].
    destruct (IH m1 _ (counts_rep_incr _ _ _ _ Hr Hm1)) as (m' & Hm' & Hr').
    { intros k. specialize (Hb k). rewrite count_str_cons in Hb. lia. }
    exists m'. split; auto. eapply counts_rep_ext; [|exact Hr'].
    intros k. rewrite count_str_cons. lia.
Qed.

Lemma incr_fold_keys (keys : list string) (m0 m : freqmap_t) :
  incr_fold keys (Ok m0) = Ok m ->
  forall k, In k (map fst m) -> In k (map fst m0) \/ In k keys.
Proof.
  unfold incr_fold. revert m0; induction keys as [|k0 keys IH]; simpl; intros m0 H k Hk.
  - inversion H; subst; auto.
  - destruct (entry_incr m0 k0) as [m1|e] eqn:E; cbn [bind] in H.
    + destruct (IH m1 H k Hk) as [Hk1|Hk1]; [|auto].
      destruct (entry_incr_keys _ _ _ E k Hk1); auto.
    + fold (incr_fold keys (Err e)) in H. rewrite incr_fold_Err in H. discriminate.
Qed.

Lemma lookup_In_iff (m : freqmap_t) (k : string) (v : Z) :
  NoDup (map fst m) -> (In (k, v) m <-> lookup m k = Some v).
Proof.
  induction m as [|[k' v'] m IH]; simpl; intros Hnd; [split; [intros []|discriminate]|].
  inversion Hnd as [|? ? Hk' Hnd']; subst.
  destruct (str_eqb k k') eqn:E.
  - apply str_eqb_spec in E; subst k'. split.
    + intros [Heq|Hin]; [inversion Heq; reflexivity|].
      exfalso. apply Hk'. apply in_map_iff. exists (k, v). auto.
    + intros Heq; inversion Heq; auto.
  - rewrite <- IH by exact Hnd'. split; [|auto].
    intros [Heq|Hin]; [|exact Hin]. inversion Heq; subst. rewrite str_eqb_refl in E. discriminate.
Qed.





Lemma with_alphabet_keys (is_word : char -> bool) (low : string -> string)
    (text alph : string) (sc : SpellingCorrector) :
  with_alphabet is_word low text alph = Ok sc ->
  forall k, In k (map fst (freqmap sc)) ->
  exists run, In run (find_iter_words is_word text) /\ k = low run.
Proof.
  unfold with_alphabet. rewrite count_words_incr_fold. intros H k Hk.
  destruct (incr_fold (map low (find_iter_words is_word text)) (Ok [])) as [m|e] eqn:E;
    cbn [bind] in H; inversion H; subst; clear H.
  destruct (incr_fold_keys _ _ _ E k Hk) as [[]|Hin].
  apply in_map_iff in Hin. destruct Hin as (run & <- & Hrun). eauto.
Qed.


Lemma ascii_to_lowercase_idem (s : string) (c : char) :
  In c (ascii_to_lowercase s) -> ascii_to_lowercase [c] = [c].
Proof.
  unfold ascii_to_lowercase. intros Hc. apply in_map_iff in Hc. destruct Hc as (c0 & <- & _).
  simpl. f_equal. f_equal.
  destruct ((65 <=? c0) && (c0 <=? 90)) eqn:E.
  - apply andb_prop in E. destruct E as [E1 E2]. apply Z.leb_le in E1, E2.
    destruct (Z.leb_spec 65 (c0 + 32)); destruct (Z.leb_spec (c0 + 32) 90); simpl; lia.
  - rewrite E. reflexivity.
Qed.

(** C10: [correction] uses its input verbatim. For tables built by the
    builder with a lowercasing that is the identity on the characters it
    produces, a word containing a character that lowercasing changes is not
    a key: the tier-1 test fails for it, and [candidates] goes on with the
    edits of the word itself. *)
Theorem tier1_no_case_folding (is_word : char -> bool) (low : string -> string)
    (text alph : string) (sc : SpellingCorrector) (v : string) :
  (forall s c, In c (low s) -> low [c] = [c]) ->
  with_alphabet is_word low text alph = Ok sc ->
  (exists c, In c v /\ low [c] <> [c]) ->
  contains_key (freqmap sc) v = false /\ known sc [v] = [] /\
  forall iter, candidates iter sc v =
    (e1 <- edits1 sc v;;
     if negb (Nat.eqb (List.length (known sc e1)) 0) then Ok (known sc e1) else
     e2 <- edits2 iter sc v;;
     if negb (Nat.eqb (List.length (known sc e2)) 0) then Ok (known sc e2) else
     Ok (collect_set [v])).
Proof.
  intros Hlow Hb (c & Hc & Hcl).
  assert (Hck : contains_key (freqmap sc) v = false).
  { unfold contains_key. destruct (lookup (freqmap sc) v) as [x|] eqn:E; [|reflexivity].
    exfalso. apply lookup_In in E.
    assert (Hk : In v (map fst (freqmap sc))) by (apply in_map_iff; exists (v, x); auto).
    destruct (with_alphabet_keys _ _ _ _ _ Hb v Hk) as (run & _ & ->).
    exact (Hcl (Hlow run c Hc)). }
  split; [exact Hck|].
  split; [rewrite known_single, Hck; reflexivity|].
  intros iter. unfold candidates. rewrite known_single, Hck. reflexivity.
Qed.

(** A table with one word. *)
Definition sc_hello : SpellingCorrector :=
  mkSpellingCorrector english_alphabet [(lit "hello", 1)].

(** Counterexample to C1: the unknown word [é] (one character of two UTF-8
    bytes) makes [edits1] slice inside the character, which panics. *)
Lemma correction_non_ascii_counterexample :
  correction (fun l => l) sc_hello [233] = Err P_str_index.
Proof. vm_compute. reflexivity. Qed.

(** For every iteration order of the sets, [correction] panics on [é]. *)
Theorem correction_non_ascii_panics (iter : list string -> list string) :
  correction iter sc_hello [233] = Err P_str_index.
Proof. reflexivity. Qed.

(** [correction] returns the empty string for the empty word when no word
    of the table lies within two edits of it. *)
Theorem correction_empty_word_empty :
  correction (fun l => l) sc_hello [] = Ok [].
Proof. vm_compute. reflexivity. Qed.



(** A table whose counts sum beyond [u32::MAX]. *)
Definition sc_big_total : SpellingCorrector :=
  mkSpellingCorrector english_alphabet [(lit "a", 4294967295); (lit "b", 1)].

(** Counterexample to C5: [a] is in the table, but summing the counts
    overflows, so [p] panics instead of returning a quotient. *)
Lemma p_overflow_counterexample :
  p sc_big_total (lit "a") = Err P_overflow.
Proof. vm_compute. reflexivity. Qed.

(** The overflow reaches [correction], which is documented never to panic:
    for the unknown word [c], [candidates] returns the keys [a] and [b] (one
    replacement away), and comparing them evaluates [p], whose [u32] sum of
    the counts overflows. *)
Lemma correction_overflow_counterexample :
  candidates (fun l => l) sc_big_total (lit "c") = Ok [lit "a"; lit "b"] /\
  correction (fun l => l) sc_big_total (lit "c") = Err P_overflow.
Proof. split; vm_compute; reflexivity. Qed.

(** Counterexample to C6: for the empty word the bound, read over the
    integers, is [0 + 1 * 26 + (0 - 1) = 25], yet [edits1] has the 26
    one-letter words. *)
Lemma edits1_bound_counterexample :
  exists s, edits1 sc_hello [] = Ok s /\
    Z.of_nat (List.length s) >
    Z.of_nat (List.length ([] : string))
    + (2 * Z.of_nat (List.length ([] : string)) + 1) * Z.of_nat (List.length (alphabet sc_hello))
    + (Z.of_nat (List.length ([] : string)) - 1).
Proof. eexists. split; [vm_compute; reflexivity | vm_compute; reflexivity]. Qed.

(** * Instances of the theorems *)

Lemma sc_hello_keys_nonempty :
  forall k v, In (k, v) (freqmap sc_hello) -> k <> [].
Proof. intros k v [H|[]]. inversion H. discriminate. Qed.

Lemma correction_nonempty_or_input_witness :
  correction (fun l => l) sc_hello (lit "helo") = Ok (lit "hello") /\
  (lit "helo" <> [] -> lit "hello" <> []) /\
  (contains_key (freqmap sc_hello) (lit "helo") = false ->
   forall e1, edits1 sc_hello (lit "helo") = Ok e1 -> known sc_hello e1 = [] ->
   forall e2, edits2 (fun l => l) sc_hello (lit "helo") = Ok e2 -> known sc_hello e2 = [] ->
   lit "hello" = lit "helo").
Proof.
  assert (H : correction (fun l => l) sc_hello (lit "helo") = Ok (lit "hello"))
    by (vm_compute; reflexivity).
  split; [exact H|].
  exact (correction_nonempty_or_input (fun l => l) (fun l => Permutation_refl l)
           sc_hello (lit "helo") (lit "hello") sc_hello_keys_nonempty H).
Defined.

Lemma correction_known_word_witness :
  contains_key (freqmap sc_hello) (lit "hello") = true /\
  correction (fun l => l) sc_hello (lit "hello") = Ok (lit "hello").
Proof.
  split; [reflexivity|].
  apply (correction_known_word (fun l => l) (fun l => Permutation_refl l)).
  reflexivity.
Defined.

Lemma candidates_waterfall_witness :
  candidates (fun l => l) sc_hello (lit "hello") = Ok [lit "hello"].
Proof.
  apply (proj1 (proj1 (candidates_waterfall (fun l => l) sc_hello (lit "hello")))).
  reflexivity.
Defined.


(** A table of two words with counts 3 and 1. *)
Definition sc_the_cat : SpellingCorrector :=
  mkSpellingCorrector english_alphabet [(lit "the", 3); (lit "cat", 1)].

Lemma p_value_witness :
  Forall (fun kv => 0 <= snd kv <= u32_max) (freqmap sc_the_cat) /\
  p sc_the_cat (lit "the") = Ok (PrimFloat.div (f64_from_u32 3) (f64_from_u32 4)).
Proof.
  assert (Hf : Forall (fun kv => 0 <= snd kv <= u32_max) (freqmap sc_the_cat)).
  { unfold u32_max. repeat constructor; simpl; lia. }
  split; [exact Hf|].
  exact (proj1 (p_value sc_the_cat (lit "the") Hf) 3 eq_refl
           ltac:(unfold u32_max; simpl; lia)).
Defined.

Lemma edits1_size_and_lengths_witness :
  exists s, edits1 sc_hello (lit "ab") = Ok s /\
  (List.length s <= List.length (lit "ab") + (2 * List.length (lit "ab") + 1)
                      * List.length (alphabet sc_hello) + (List.length (lit "ab") - 1))%nat /\
  (forall x, In x s ->
   List.length x + 1 = List.length (lit "ab") \/ List.length x = List.length (lit "ab") \/
   List.length x = List.length (lit "ab") + 1)%nat.
Proof.
  destruct (edits1 sc_hello (lit "ab")) as [s|e] eqn:E; [|discriminate E].
  exists s. split; [reflexivity|].
  exact (edits1_size_and_lengths sc_hello (lit "ab") s E).
Defined.

Lemma edits1_empty_word_witness :
  edits1 sc_hello [] = Ok (collect_set (map (fun c => [c]) english_alphabet)).
Proof. exact (proj1 (edits1_empty_word (fun l => l) sc_hello)). Defined.

Lemma correction_scores_known_only_witness :
  correction (fun l => l) sc_hello (lit "helo") <> Err P_map_index.
Proof.
  exact (proj2 (correction_scores_known_only (fun l => l) (fun l => Permutation_refl l)
                  sc_hello (lit "helo"))).
Defined.

Lemma correction_known_or_input_witness :
  correction (fun l => l) sc_hello (lit "helo") = Ok (lit "hello") /\
  (lit "hello" = lit "helo" \/ contains_key (freqmap sc_hello) (lit "hello") = true).
Proof.
  assert (H : correction (fun l => l) sc_hello (lit "helo") = Ok (lit "hello"))
    by (vm_compute; reflexivity).
  split; [exact H|].
  exact (correction_known_or_input (fun l => l) (fun l => Permutation_refl l)
           sc_hello (lit "helo") (lit "hello") H).
Defined.

(** The table built from [The cat]. *)
Definition sc_lower : SpellingCorrector :=
  mkSpellingCorrector english_alphabet [(lit "the", 1); (lit "cat", 1)].

Lemma tier1_no_case_folding_witness :
  with_alphabet ascii_is_word_char ascii_to_lowercase (lit "The cat") english_alphabet
    = Ok sc_lower /\
  contains_key (freqmap sc_lower) (lit "The") = false /\ known sc_lower [lit "The"] = [].
Proof.
  assert (Hb : with_alphabet ascii_is_word_char ascii_to_lowercase (lit "The cat")
                 english_alphabet = Ok sc_lower) by (vm_compute; reflexivity).
  split; [exact Hb|].
  destruct (tier1_no_case_folding ascii_is_word_char ascii_to_lowercase (lit "The cat")
              english_alphabet sc_lower (lit "The") ascii_to_lowercase_idem Hb)
    as (H1 & H2 & _).
  { exists 84. split; [left; reflexivity | discriminate]. }
  split; assumption.
Defined.

(** * Further properties of the corrector *)

(** ** [edits1] on ASCII words *)

Lemma firstn_skipn_app (l r : string) :
  firstn (List.length l) (l ++ r) = l /\ skipn (List.length l) (l ++ r) = r.
Proof. induction l as [|c l IH]; simpl; [auto|]. destruct IH as [-> ->]. auto. Qed.

Lemma ascii_splits_In_iff (w l r : string) :
  In (l, r) (ascii_splits w) <-> w = l ++ r.
Proof.
  split.
  - intros H. destruct (In_ascii_splits _ _ H) as (i & _ & E). inversion E; subst.
    symmetry. apply firstn_skipn.
  - intros ->. unfold ascii_splits. apply in_map_iff. exists (List.length l).
    destruct (firstn_skipn_app l r) as [-> ->]. split; [reflexivity|].
    apply in_seq. rewrite length_app. lia.
Qed.

Lemma ascii_app_r (l r : string) : ascii_str (l ++ r) -> ascii_str r.
Proof. unfold ascii_str. rewrite Forall_app. tauto. Qed.

Lemma ascii_app (l r : string) : ascii_str l -> ascii_str r -> ascii_str (l ++ r).
Proof. unfold ascii_str. rewrite Forall_app. tauto. Qed.

Lemma splits_ascii (w : string) : ascii_str w -> splits w = Ok (ascii_splits w).
Proof.
  intros Hw. unfold splits. rewrite ascii_str_len by exact Hw.
  apply mapM_Ok_map. intros i Hi. apply in_seq in Hi. unfold slice_to, slice_from.
  rewrite ascii_split by exact Hw.
  destruct (Nat.leb_spec i (List.length w)); [reflexivity | lia].
Qed.

Lemma slice_from_ascii (r : string) (i : nat) :
  ascii_str r -> (i <= List.length r)%nat -> slice_from r i = Ok (skipn i r).
Proof.
  intros Hr Hi. unfold slice_from. rewrite ascii_split by exact Hr.
  destruct (Nat.leb_spec i (List.length r)); [reflexivity | lia].
Qed.

Lemma slice_ascii (r : string) (a b : nat) :
  ascii_str r -> (a <= b)%nat -> (b <= List.length r)%nat ->
  slice r a b = Ok (firstn (b - a) (skipn a r)).
Proof.
  intros Hr Hab Hb. unfold slice. destruct (Nat.leb_spec a b); [|lia].
  rewrite slice_from_ascii by (auto; lia). cbn [bind]. unfold slice_to.
  rewrite ascii_split by (apply ascii_skipn; auto).
  rewrite length_skipn. destruct (Nat.leb_spec (b - a) (List.length r - a)); [reflexivity | lia].
Qed.

Lemma str_len_zero (s : string) : str_len s = 0%nat <-> s = [].
Proof.
  destruct s as [|c s]; simpl; [tauto|]. pose proof (len_utf8_pos c).
  split; [lia | discriminate].
Qed.

(** The four families of [edits1], as the code builds them from the splits
    of an ASCII word. *)
Lemma deletes_ascii (w : string) :
  ascii_str w ->
  deletes (ascii_splits w) =
  Ok (map (fun lr => fst lr ++ skipn 1 (snd lr))
          (filter (fun lr => negb (Nat.eqb (str_len (snd lr)) 0)) (ascii_splits w))).
Proof.
  intros Hw. unfold deletes. apply mapM_Ok_map. intros [l r] H.
  apply filter_In in H as [Hlr Hf]. apply ascii_splits_In_iff in Hlr. subst w.
  cbn [fst snd] in *. pose proof (ascii_app_r _ _ Hw) as Hr.
  rewrite slice_from_ascii; [reflexivity | exact Hr |].
  destruct r; [discriminate | simpl; lia].
Qed.

Lemma transposes_ascii (w : string) :
  ascii_str w ->
  transposes (ascii_splits w) =
  Ok (map (fun lr => fst lr ++ firstn 1 (skipn 1 (snd lr)) ++ firstn 1 (snd lr)
                     ++ skipn 2 (snd lr))
          (filter (fun lr => Nat.ltb 1 (str_len (snd lr))) (ascii_splits w))).
Proof.
  intros Hw. unfold transposes. apply mapM_Ok_map. intros [l r] H.
  apply filter_In in H as [Hlr Hf]. apply ascii_splits_In_iff in Hlr. subst w.
  cbn [fst snd] in *. pose proof (ascii_app_r _ _ Hw) as Hr.
  rewrite ascii_str_len in Hf by exact Hr. apply Nat.ltb_lt in Hf.
  rewrite (slice_ascii r 1 2), (slice_ascii r 0 1), slice_from_ascii by (auto; lia).
  reflexivity.
Qed.

Lemma replaces_ascii self (w : string) :
  ascii_str w ->
  replaces self (ascii_splits w) =
  Ok (List.concat
        (map (fun lr => map (fun c => fst lr ++ [c] ++ skipn 1 (snd lr)) (alphabet self))
             (filter (fun lr => negb (Nat.eqb (str_len (snd lr)) 0)) (ascii_splits w)))).
Proof.
  intros Hw. unfold replaces. rewrite mapM_Ok_map with
    (g := fun lr => map (fun c => fst lr ++ [c] ++ skipn 1 (snd lr)) (alphabet self)).
  - reflexivity.
  - intros [l r] H. apply filter_In in H as [Hlr Hf]. apply ascii_splits_In_iff in Hlr.
    subst w. cbn [fst snd] in *. pose proof (ascii_app_r _ _ Hw) as Hr.
    apply mapM_Ok_map. intros c _.
    rewrite slice_from_ascii; [reflexivity | exact Hr |].
    destruct r; [discriminate | simpl; lia].
Qed.

Lemma hs_insert_NoDup (x : string) (s : list string) : NoDup s -> NoDup (hs_insert x s).
Proof.
  unfold hs_insert. intros Hs. destruct (existsb (str_eqb x) s) eqn:E; [exact Hs|].
  apply Permutation_NoDup with (x :: s); [apply Permutation_cons_append|].
  constructor; [|exact Hs]. intros Hin.
  assert (existsb (str_eqb x) s = true) as E' by (apply existsb_exists; exists x; auto using str_eqb_refl).
  congruence.
Qed.

Lemma collect_set_NoDup (l : list string) : NoDup (collect_set l).
Proof.
  unfold collect_set. assert (H : NoDup ([] : list string)) by constructor. revert H.
  generalize ([] : list string). induction l as [|x l IH]; simpl; intros s Hs; auto.
  apply IH. apply hs_insert_NoDup. exact Hs.
Qed.

Lemma edits1_ascii self (w : string) :
  ascii_str w ->
  edits1 self w =
  Ok (collect_set
        (map (fun lr => fst lr ++ skipn 1 (snd lr))
             (filter (fun lr => negb (Nat.eqb (str_len (snd lr)) 0)) (ascii_splits w)) ++
         map (fun lr => fst lr ++ firstn 1 (skipn 1 (snd lr)) ++ firstn 1 (snd lr)
                        ++ skipn 2 (snd lr))
             (filter (fun lr => Nat.ltb 1 (str_len (snd lr))) (ascii_splits w)) ++
         List.concat
           (map (fun lr => map (fun c => fst lr ++ [c] ++ skipn 1 (snd lr)) (alphabet self))
                (filter (fun lr => negb (Nat.eqb (str_len (snd lr)) 0)) (ascii_splits w))) ++
         inserts self (ascii_splits w))).
Proof.
  intros Hw. unfold edits1.
  rewrite splits_ascii by exact Hw. cbn [bind].
  rewrite deletes_ascii, transposes_ascii, replaces_ascii by exact Hw.
  reflexivity.
Qed.

Lemma deletes_members (w x : string) :
  In x (map (fun lr => fst lr ++ skipn 1 (snd lr))
            (filter (fun lr => negb (Nat.eqb (str_len (snd lr)) 0)) (ascii_splits w))) <->
  exists l c r, w = l ++ c :: r /\ x = l ++ r.
Proof.
  rewrite in_map_iff. split.
  - intros ([l r'] & <- & H). apply filter_In in H as [H Hf].
    apply ascii_splits_In_iff in H. cbn [fst snd] in *.
    destruct r' as [|c r]; [discriminate|]. exists l, c, r. auto.
  - intros (l & c & r & -> & ->). exists (l, c :: r). split; [reflexivity|].
    apply filter_In. split; [apply ascii_splits_In_iff; reflexivity|].
    cbn [snd]. destruct (Nat.eqb_spec (str_len (c :: r)) 0) as [E|E]; [|reflexivity].
    apply str_len_zero in E. discriminate.
Qed.

Lemma transposes_members (w x : string) :
  ascii_str w ->
  In x (map (fun lr => fst lr ++ firstn 1 (skipn 1 (snd lr)) ++ firstn 1 (snd lr)
                       ++ skipn 2 (snd lr))
            (filter (fun lr => Nat.ltb 1 (str_len (snd lr))) (ascii_splits w))) <->
  exists l a b r, w = l ++ a :: b :: r /\ x = l ++ b :: a :: r.
Proof.
  intros Hw. rewrite in_map_iff. split.
  - intros ([l r'] & <- & H). apply filter_In in H as [H Hf].
    apply ascii_splits_In_iff in H. cbn [fst snd] in *. subst w.
    rewrite ascii_str_len in Hf by (eapply ascii_app_r; eauto). apply Nat.ltb_lt in Hf.
    destruct r' as [|a [|b r]]; simpl in Hf; [lia | lia|]. exists l, a, b, r. auto.
  - intros (l & a & b & r & -> & ->). exists (l, a :: b :: r). split; [reflexivity|].
    apply filter_In. split; [apply ascii_splits_In_iff; reflexivity|].
    cbn [snd]. apply Nat.ltb_lt. pose proof (len_utf8_pos a). pose proof (len_utf8_pos b).
    simpl. lia.
Qed.

Lemma replaces_members self (w x : string) :
  In x (List.concat
          (map (fun lr => map (fun c => fst lr ++ [c] ++ skipn 1 (snd lr)) (alphabet self))
               (filter (fun lr => negb (Nat.eqb (str_len (snd lr)) 0)) (ascii_splits w)))) <->
  exists l c r a, w = l ++ c :: r /\ In a (alphabet self) /\ x = l ++ a :: r.
Proof.
  rewrite in_concat. split.
  - intros (y & Hy & Hx). apply in_map_iff in Hy as ([l r'] & <- & H).
    apply filter_In in H as [H Hf]. apply ascii_splits_In_iff in H.
    apply in_map_iff in Hx as (a & <- & Ha). cbn [fst snd] in *.
    destruct r' as [|c r]; [discriminate|]. exists l, c, r, a. auto.
  - intros (l & c & r & a & -> & Ha & ->).
    exists (map (fun a0 => l ++ [a0] ++ skipn 1 (c :: r)) (alphabet self)). split.
    + apply in_map_iff. exists (l, c :: r). split; [reflexivity|].
      apply filter_In. split; [apply ascii_splits_In_iff; reflexivity|].
      cbn [snd]. destruct (Nat.eqb_spec (str_len (c :: r)) 0) as [E|E]; [|reflexivity].
      apply str_len_zero in E. discriminate.
    + apply in_map_iff. exists a. auto.
Qed.

Lemma inserts_members self (w x : string) :
  In x (inserts self (ascii_splits w)) <->
  exists l r a, w = l ++ r /\ In a (alphabet self) /\ x = l ++ a :: r.
Proof.
  unfold inserts. rewrite in_concat. split.
  - intros (y & Hy & Hx). apply in_map_iff in Hy as ([l r] & <- & H).
    apply ascii_splits_In_iff in H. apply in_map_iff in Hx as (a & <- & Ha).
    exists l, r, a. auto.
  - intros (l & r & a & -> & Ha & ->).
    exists (map (fun a0 => l ++ [a0] ++ r) (alphabet self)). split.
    + apply in_map_iff. exists (l, r). split; [reflexivity | apply ascii_splits_In_iff; reflexivity].
    + apply in_map_iff. exists a. auto.
Qed.

Lemma edits1_non_ascii self (w : string) :
  ~ ascii_str w -> edits1 self w = Err P_str_index.
Proof.
  intros Hw. destruct (edits1 self w) as [s|e] eqn:E.
  - exfalso. apply Hw. exact (proj1 (edits1_parts _ _ _ E)).
  - f_equal. exact (edits1_slices_only self w e E).
Qed.

(** [edits1 word] returns exactly when every character of [word] is one
    UTF-8 byte (ASCII), whatever the alphabet; otherwise it panics on a
    string index, because it slices [word] at every byte offset. *)
Theorem edits1_Ok_iff_ascii self (w : string) :
  ((exists s, edits1 self w = Ok s) <-> ascii_str w) /\
  (~ ascii_str w -> edits1 self w = Err P_str_index).
Proof.
  split; [split|].
  - intros (s & Hs). exact (proj1 (edits1_parts _ _ _ Hs)).
  - intros Hw. rewrite edits1_ascii by exact Hw. eauto.
  - apply edits1_non_ascii.
Qed.

Lemma edits1_ascii_members self (w : string) :
  ascii_str w ->
  exists s, edits1 self w = Ok s /\ NoDup s /\
  forall x, In x s <->
    (exists l c r, w = l ++ c :: r /\ x = l ++ r) \/
    (exists l a b r, w = l ++ a :: b :: r /\ x = l ++ b :: a :: r) \/
    (exists l c r a, w = l ++ c :: r /\ In a (alphabet self) /\ x = l ++ a :: r) \/
    (exists l r a, w = l ++ r /\ In a (alphabet self) /\ x = l ++ a :: r).
Proof.
  intros Hw. rewrite edits1_ascii by exact Hw. eexists. split; [reflexivity|].
  split; [apply collect_set_NoDup|]. intros x.
  rewrite collect_set_In, !in_app_iff, deletes_members, transposes_members, replaces_members,
    inserts_members by exact Hw.
  reflexivity.
Qed.

(** For an ASCII word, [edits1 word] is a set without duplicates whose
    members are exactly the words one deletion, one transposition of
    adjacent characters, one replacement by an alphabet character, or one
    insertion of an alphabet character away from [word]. *)
Theorem edits1_members self (w : string) :
  ascii_str w ->
  exists s, edits1 self w = Ok s /\ NoDup s /\
  forall x, In x s <->
    (exists l c r, w = l ++ c :: r /\ x = l ++ r) \/
    (exists l a b r, w = l ++ a :: b :: r /\ x = l ++ b :: a :: r) \/
    (exists l c r a, w = l ++ c :: r /\ In a (alphabet self) /\ x = l ++ a :: r) \/
    (exists l r a, w = l ++ r /\ In a (alphabet self) /\ x = l ++ a :: r).
Proof. exact (edits1_ascii_members self w). Qed.

(** For a word that is not in the table and has a character of more than
    one UTF-8 byte, [correction] panics on a string index, whatever the
    table, the alphabet and the iteration order. *)
Theorem correction_unknown_non_ascii_panics iter self (w : string) :
  contains_key (freqmap self) w = false -> ~ ascii_str w ->
  correction iter self w = Err P_str_index.
Proof.
  intros Hk Hw. unfold correction, candidates. rewrite known_single, Hk.
  cbn [List.length Nat.eqb negb]. rewrite edits1_non_ascii by exact Hw. reflexivity.
Qed.

Lemma mapM_Ok_exists {A B : Type} (f : A -> result B) (l : list A) :
  (forall x, In x l -> exists y, f x = Ok y) -> exists ys, mapM f l = Ok ys.
Proof.
  induction l as [|x l IH]; simpl; intros H; [eauto|].
  destruct (H x (or_introl eq_refl)) as (y & ->). cbn [bind].
  destruct IH as (ys & ->); [auto|]. cbn [bind]. eauto.
Qed.

Lemma edits1_members_ascii self (w : string) (s : list string) :
  ascii_str w -> ascii_str (alphabet self) -> edits1 self w = Ok s ->
  forall x, In x s -> ascii_str x.
Proof.
  intros Hw Ha H x Hx. destruct (edits1_ascii_members self w Hw) as (s' & H' & _ & Hm).
  rewrite H in H'. inversion H'; subst s'. clear H'.
  unfold ascii_str in *.
  apply Hm in Hx as [(l & c & r & -> & ->)|[(l & a & b & r & -> & ->)|
                    [(l & c & r & a & -> & Hin & ->)|(l & r & a & -> & Hin & ->)]]];
    rewrite ?Forall_app in Hw |- *; rewrite ?Forall_cons_iff in *; rewrite Forall_forall in Ha;
    intuition auto.
Qed.

Lemma ascii_str_dec (s : string) : {ascii_str s} + {~ ascii_str s}.
Proof. apply Forall_dec. intros c. apply Nat.eq_dec. Defined.

Lemma ascii_pair_dec (a b : string) :
  {ascii_str a /\ ascii_str b} + {~ (ascii_str a /\ ascii_str b)}.
Proof.
  destruct (ascii_str_dec a); [|right; tauto].
  destruct (ascii_str_dec b); [left; auto | right; tauto].
Defined.

Section Edits2.

Variable iter : list string -> list string.
Hypothesis iter_perm : forall l, Permutation (iter l) l.

Lemma edits2_non_ascii self (w : string) :
  ~ (ascii_str w /\ ascii_str (alphabet self)) -> edits2 iter self w = Err P_str_index.
Proof.
  intros Hn. destruct (edits2 iter self w) as [e2|e] eqn:E.
  - exfalso. apply Hn. unfold edits2 in E.
    destruct (edits1 self w) as [e1|e] eqn:E1; cbn [bind] in E; [|discriminate].
    destruct (mapM (edits1 self) (iter e1)) as [ls|e] eqn:E2; cbn [bind] in E; [|discriminate].
    pose proof (proj1 (edits1_parts _ _ _ E1)) as Hw. split; [exact Hw|].
    unfold ascii_str. apply Forall_forall. intros ch Hch.
    destruct (mapM_Ok_all _ _ _ E2 (ch :: w)) as (s & Hs).
    { apply (Permutation_in _ (Permutation_sym (iter_perm e1))).
      destruct (edits1_ascii_members self w Hw) as (s' & H' & _ & Hmem).
      rewrite E1 in H'. inversion H'; subst s'. apply Hmem. right; right; right.
      exists [], w, ch. auto. }
    pose proof (proj1 (edits1_parts _ _ _ Hs)) as Haw. inversion Haw. assumption.
  - f_equal. exact (edits2_slices_only iter self w e E).
Qed.


Lemma edits2_Ok_ascii self (w : string) :
  ascii_str w -> ascii_str (alphabet self) -> exists e2, edits2 iter self w = Ok e2.
Proof.
  intros Hw Ha. unfold edits2.
  destruct (edits1 self w) as [e1|e] eqn:E1;
    [|rewrite edits1_ascii in E1 by exact Hw; discriminate].
  cbn [bind]. destruct (mapM_Ok_exists (edits1 self) (iter e1)) as (ls & ->).
  { intros y Hy. apply (Permutation_in _ (iter_perm e1)) in Hy.
    pose proof (edits1_members_ascii self w e1 Hw Ha E1 y Hy) as Hay.
    rewrite edits1_ascii by exact Hay. eauto. }
  cbn [bind]. eauto.
Qed.

(** [edits2 word] returns exactly when [word] and the alphabet are ASCII;
    otherwise it panics on a string index. With a non-ASCII alphabet
    character [c], the insertion [c :: word] is in [edits1 word], and
    [edits1] of it panics. *)
Theorem edits2_Ok_iff_ascii self (w : string) :
  ((exists e2, edits2 iter self w = Ok e2) <-> ascii_str w /\ ascii_str (alphabet self)) /\
  (~ (ascii_str w /\ ascii_str (alphabet self)) -> edits2 iter self w = Err P_str_index).
Proof.
  split; [split|].
  - intros (e2 & He2). destruct (ascii_pair_dec w (alphabet self)) as [H|H]; [exact H|].
    rewrite edits2_non_ascii in He2 by exact H. discriminate.
  - intros [Hw Ha]. exact (edits2_Ok_ascii self w Hw Ha).
  - apply edits2_non_ascii.
Qed.


End Edits2.

(** ** The builder *)

Lemma entry_incr_bound (m m' : freqmap_t) (key : string) :
  entry_incr m key = Ok m' -> forall v, lookup m key = Some v -> v + 1 <= u32_max.
Proof.
  revert m'; induction m as [|[k' v0] m IH]; cbn [entry_incr lookup]; intros m' H v Hv;
    [discriminate|].
  destruct (str_eqb key k') eqn:E.
  - inversion Hv; subst v0. destruct (Z.leb_spec (v + 1) u32_max); [assumption | discriminate].
  - destruct (entry_incr m key) as [r|e] eqn:Er; cbn [bind] in H; [|discriminate].
    eapply IH; eauto.
Qed.

Lemma entry_incr_errors (m : freqmap_t) (key : string) (e : panic) :
  entry_incr m key = Err e -> e = P_overflow.
Proof.
  induction m as [|[k' v0] m IH]; cbn [entry_incr]; intros H; [discriminate|].
  destruct (str_eqb key k').
  - destruct (v0 + 1 <=? u32_max); inversion H; reflexivity.
  - destruct (entry_incr m key) as [r|e'] eqn:Er; cbn [bind] in H; [discriminate|].
    inversion H; subst. auto.
Qed.

Lemma incr_fold_errors (keys : list string) (acc : result freqmap_t) (e : panic) :
  (forall e0, acc = Err e0 -> e0 = P_overflow) -> incr_fold keys acc = Err e -> e = P_overflow.
Proof.
  unfold incr_fold. revert acc; induction keys as [|k keys IH]; simpl; intros acc Ha H; auto.
  apply IH in H; [exact H|]. intros e0 He0. destruct acc as [m|e1]; cbn [bind] in He0.
  - exact (entry_incr_errors _ _ _ He0).
  - inversion He0; subst. auto.
Qed.

Lemma incr_fold_bounded (keys : list string) (m m' : freqmap_t) (f : string -> nat) :
  counts_rep m f -> (forall k, Z.of_nat (f k) <= u32_max) ->
  incr_fold keys (Ok m) = Ok m' ->
  counts_rep m' (fun k => (f k + count_str k keys)%nat) /\
  forall k, Z.of_nat (f k + count_str k keys) <= u32_max.
Proof.
  revert m f; induction keys as [|k0 keys IH]; intros m f Hr Hb H.
  - unfold incr_fold in H. simpl in H. inversion H; subst. split.
    + eapply counts_rep_ext; [|exact Hr]. intros k; unfold count_str; simpl; lia.
    + intros k. unfold count_str; simpl. rewrite Nat.add_0_r. auto.
  - unfold incr_fold in H. cbn [fold_left bind] in H.
    destruct (entry_incr m k0) as [m1|e] eqn:E1;
      [|fold (incr_fold keys (Err e)) in H; rewrite incr_fold_Err in H; discriminate].
    fold (incr_fold keys (Ok m1)) in H.
    pose proof (counts_rep_incr _ _ _ _ Hr E1) as Hr1.
    destruct (IH m1 _ Hr1) as [Hr' Hb']; [| exact H |].
    + intros k. destruct (str_eqb k k0) eqn:Ek.
      * apply str_eqb_spec in Ek; subst k.
        destruct Hr as [_ Hl]. pose proof (Hl k0) as Hk0.
        destruct (Nat.eqb_spec (f k0) 0) as [Z0|NZ].
        -- rewrite Z0. simpl. unfold u32_max. lia.
        -- pose proof (entry_incr_bound _ _ _ E1 _ Hk0). lia.
      * simpl. apply Hb.
    + split.
      * eapply counts_rep_ext; [|exact Hr']. intros k. rewrite count_str_cons. lia.
      * intros k. specialize (Hb' k). rewrite count_str_cons. lia.
Qed.

Lemma word_runs_props (is_word : char -> bool) (text cur run : string) :
  Forall (fun c => is_word c = true) cur -> In run (word_runs is_word cur text) ->
  run <> [] /\ Forall (fun c => is_word c = true) run.
Proof.
  revert cur; induction text as [|c t IH]; intros cur Hc Hin; cbn [word_runs] in Hin.
  - destruct cur as [|c0 cur]; [contradiction|]. destruct Hin as [<-|[]].
    split; [|apply Forall_rev; exact Hc].
    simpl. intros E. apply app_eq_nil in E as [_ E]. discriminate.
  - destruct (is_word c) eqn:Ew.
    + apply (IH (c :: cur)); [constructor; auto | exact Hin].
    + destruct cur as [|c0 cur]; [apply (IH []); auto|].
      destruct Hin as [<-|Hin]; [|apply (IH []); auto].
      split; [|apply Forall_rev; exact Hc].
      simpl. intros E. apply app_eq_nil in E as [_ E]. discriminate.
Qed.

(** The builder returns exactly when no lowercased [\w+] run of the text
    occurs more than [u32::MAX] times; its only panic is the overflow of a
    count. *)
Theorem with_alphabet_Ok_iff (is_word : char -> bool) (low : string -> string)
    (text alph : string) :
  ((exists sc, with_alphabet is_word low text alph = Ok sc) <->
   forall k, Z.of_nat (count_str k (map low (find_iter_words is_word text))) <= u32_max) /\
  (forall e, with_alphabet is_word low text alph = Err e -> e = P_overflow).
Proof.
  unfold with_alphabet. rewrite count_words_incr_fold.
  assert (Hr0 : counts_rep [] (fun _ => 0%nat)) by (split; [constructor | reflexivity]).
  split; [split|].
  - intros (sc & H).
    destruct (incr_fold (map low (find_iter_words is_word text)) (Ok [])) as [m|e] eqn:E;
      cbn [bind] in H; [|discriminate].
    destruct (incr_fold_bounded _ _ _ _ Hr0 (fun k => ltac:(simpl; unfold u32_max; lia)) E)
      as [_ Hb].
    exact Hb.
  - intros Hb.
    destruct (incr_fold_spec (map low (find_iter_words is_word text)) [] (fun _ => 0%nat) Hr0 Hb)
      as (m & Hm & _).
    match goal with |- context [incr_fold ?a ?b] =>
      replace (incr_fold a b) with (@Ok freqmap_t m) by (symmetry; exact Hm) end.
    cbn [bind]. eauto.
  - intros e H.
    destruct (incr_fold (map low (find_iter_words is_word text)) (Ok [])) as [m|e'] eqn:E;
      cbn [bind] in H; inversion H; subst.
    eapply incr_fold_errors; [|exact E]. intros e0 He0; discriminate.
Qed.

Lemma with_alphabet_table_props (is_word : char -> bool) (low : string -> string)
    (text alph : string) (sc : SpellingCorrector) :
  with_alphabet is_word low text alph = Ok sc ->
  alphabet sc = alph /\ NoDup (map fst (freqmap sc)) /\
  forall k v, In (k, v) (freqmap sc) ->
    1 <= v <= u32_max /\
    exists run, In run (find_iter_words is_word text) /\ run <> [] /\
                Forall (fun c => is_word c = true) run /\ k = low run.
Proof.
  intros H. pose proof (with_alphabet_keys _ _ _ _ _ H) as Hkeys.
  unfold with_alphabet in H. rewrite count_words_incr_fold in H.
  destruct (incr_fold (map low (find_iter_words is_word text)) (Ok [])) as [m|e] eqn:E;
    cbn [bind] in H; inversion H; subst sc; clear H.
  assert (Hr0 : counts_rep [] (fun _ => 0%nat)) by (split; [constructor | reflexivity]).
  destruct (incr_fold_bounded _ _ _ _ Hr0 (fun k => ltac:(simpl; unfold u32_max; lia)) E)
    as [[Hnd Hl] Hb].
  split; [reflexivity|]. split; [exact Hnd|]. cbn [freqmap alphabet] in *.
  intros k v Hkv. split.
  - apply lookup_In_iff in Hkv; [|exact Hnd]. rewrite Hl in Hkv. specialize (Hb k).
    destruct (Nat.eqb_spec (0 + count_str k (map low (find_iter_words is_word text))) 0);
      inversion Hkv; subst; lia.
  - destruct (Hkeys k) as (run & Hrun & ->).
    + apply in_map_iff. exists (k, v). auto.
    + exists run. destruct (word_runs_props is_word text [] run (Forall_nil _) Hrun).
      auto.
Qed.

(** A table built by the builder has distinct keys, every count between 1
    and [u32::MAX], and every key the lowercasing of a non-empty run of
    word characters of the text. *)
Theorem with_alphabet_table (is_word : char -> bool) (low : string -> string)
    (text alph : string) (sc : SpellingCorrector) :
  with_alphabet is_word low text alph = Ok sc ->
  alphabet sc = alph /\ NoDup (map fst (freqmap sc)) /\
  forall k v, In (k, v) (freqmap sc) ->
    1 <= v <= u32_max /\
    exists run, In run (find_iter_words is_word text) /\ run <> [] /\
                Forall (fun c => is_word c = true) run /\ k = low run.
Proof. exact (with_alphabet_table_props is_word low text alph sc). Qed.

(** ** [f64] arithmetic of [p]

    The quotient [f64::from(c) / f64::from(total)] of [p] is never NaN when
    [total] is positive: [f64::from] of a [u32] is exact, hence finite and
    positive for [0 < total], and IEEE division by a finite non-zero value
    only gives NaN on a NaN dividend.  Hence [partial_cmp] of two such
    quotients is never [None]. *)

Lemma shr_1_nonneg (r : shr_record) : 0 <= shr_m r -> 0 <= shr_m (shr_1 r).
Proof. destruct r as [m rr s]; simpl. intros H. destruct m as [|[p|p|]|[p|p|]]; simpl; lia. Qed.

Lemma iter_shr_1_nonneg (n : positive) (r : shr_record) :
  0 <= shr_m r -> 0 <= shr_m (iter_pos shr_1 n r).
Proof.
  revert r; induction n as [n IH|n IH|]; intros r H; simpl; auto using shr_1_nonneg.
Qed.

Lemma shr_fexp_nonneg (m e : Z) (l : location) :
  0 <= m -> 0 <= shr_m (fst (shr_fexp prec emax m e l)).
Proof.
  intros Hm. unfold shr_fexp, shr.
  assert (0 <= shr_m (shr_record_of_loc m l)) by (destruct l as [|[]]; simpl; exact Hm).
  destruct (_ - e); simpl; auto using iter_shr_1_nonneg.
Qed.

Lemma round_nearest_even_nonneg (m : Z) (l : location) :
  0 <= m -> 0 <= round_nearest_even m l.
Proof. intros Hm. destruct l as [|[]]; simpl; try destruct (Z.even m); lia. Qed.

Lemma binary_round_aux_not_nan (sx : bool) (mx ex : Z) (lx : location) :
  0 <= mx -> binary_round_aux prec emax sx mx ex lx <> S754_nan.
Proof.
  intros Hm. unfold binary_round_aux.
  pose proof (shr_fexp_nonneg mx ex lx Hm) as H1.
  destruct (shr_fexp prec emax mx ex lx) as [mrs' e'] eqn:E1. simpl in H1.
  pose proof (shr_fexp_nonneg _ e' loc_Exact
                (round_nearest_even_nonneg (shr_m mrs') (loc_of_shr_record mrs') H1)) as H2.
  destruct (shr_fexp prec emax (round_nearest_even (shr_m mrs') (loc_of_shr_record mrs')) e' loc_Exact)
    as [mrs'' e''] eqn:E2. simpl in H2.
  destruct (shr_m mrs''); [discriminate| |lia].
  destruct (e'' <=? emax - prec); discriminate.
Qed.

Lemma of_uint63_not_nan (n : int) : Prim2SF (of_uint63 n) <> S754_nan.
Proof.
  rewrite of_uint63_spec. pose proof (to_Z_bounded n) as [H0 _].
  unfold binary_normalize. destruct (to_Z n) as [|m|m]; [discriminate| |lia].
  unfold binary_round. destruct (shl_align m 0 _) as [mz ez].
  apply binary_round_aux_not_nan. lia.
Qed.

Lemma digits2_pos_iter_xO (k m : positive) :
  digits2_pos (Pos.iter xO m k) = (digits2_pos m + k)%positive.
Proof.
  induction k as [|k IH] using Pos.peano_ind.
  - simpl. rewrite Pos.add_1_r. reflexivity.
  - rewrite Pos.iter_succ. cbn [digits2_pos]. rewrite IH, Pos.add_succ_r. reflexivity.
Qed.

Lemma digits2_pos_size (m : positive) : digits2_pos m = Pos.size m.
Proof. induction m as [m IH|m IH|]; simpl; rewrite ?IH; reflexivity. Qed.

Lemma digits2_pos_le (m : positive) : Zpos m < 2 ^ 53 -> (Zpos (digits2_pos m) <= 53).
Proof.
  intros Hm. rewrite digits2_pos_size. pose proof (Pos.size_le m) as H.
  apply Pos2Z.pos_le_pos in H. rewrite Pos2Z.inj_pow in H.
  change (Zpos m~0) with (2 * Zpos m) in H.
  destruct (Z.le_gt_cases (Zpos (Pos.size m)) 53) as [|Hgt]; [assumption|].
  assert (2 ^ 54 <= 2 ^ Zpos (Pos.size m)) by (apply Z.pow_le_mono_r; lia).
  assert (E : 2 ^ 54 = 2 * 2 ^ 53) by reflexivity. lia.
Qed.

(** The conversion of a positive integer below [2^53] is a finite float. *)
Lemma of_uint63_finite (n : int) :
  0 < to_Z n < 2 ^ 53 -> exists m e, Prim2SF (of_uint63 n) = S754_finite false m e.
Proof.
  intros Hn. rewrite of_uint63_spec. unfold binary_normalize.
  destruct (to_Z n) as [|m|m] eqn:En; [lia| |lia].
  pose proof (digits2_pos_le m (proj2 Hn)) as Hd.
  assert (Hd1 : 1 <= Zpos (digits2_pos m)) by lia.
  unfold binary_round.
  assert (Hf : fexp prec emax (Zpos (digits2_pos m) + 0) = Zpos (digits2_pos m) - 53).
  { unfold fexp, SpecFloat.emin, prec, emax. lia. }
  rewrite Hf.
  assert (Hsh : exists mz, shl_align m 0 (Zpos (digits2_pos m) - 53) =
                           (mz, Zpos (digits2_pos m) - 53) /\ Zpos (digits2_pos mz) = 53).
  { unfold shl_align. rewrite Z.sub_0_r.
    destruct (Zpos (digits2_pos m) - 53) as [|q|q] eqn:Eq.
    - exists m. split; [reflexivity | lia].
    - lia.
    - exists (Pos.iter xO m q). split; [reflexivity|].
      rewrite digits2_pos_iter_xO, Pos2Z.inj_add. lia. }
  destruct Hsh as (mz & -> & Hmz).
  set (ez := Zpos (digits2_pos m) - 53).
  assert (Hshr : shr_fexp prec emax (Zpos mz) ez loc_Exact =
                 ({| shr_m := Zpos mz; shr_r := false; shr_s := false |}, ez)).
  { unfold shr_fexp. cbn [Zdigits2 shr_record_of_loc].
    assert (E0 : fexp prec emax (Zpos (digits2_pos mz) + ez) - ez = 0).
    { unfold fexp, SpecFloat.emin, prec, emax, ez. lia. }
    rewrite E0. reflexivity. }
  unfold binary_round_aux. rewrite Hshr. cbn [shr_m loc_of_shr_record round_nearest_even].
  rewrite Hshr. cbn [shr_m].
  assert (Hle : (ez <=? emax - prec) = true) by (apply Z.leb_le; unfold ez, emax, prec; lia).
  rewrite Hle. eauto.
Qed.

Lemma div_not_nan (x y : float) (sy : bool) (my : positive) (ey : Z) :
  Prim2SF x <> S754_nan -> Prim2SF y = S754_finite sy my ey ->
  Prim2SF (PrimFloat.div x y) <> S754_nan.
Proof.
  intros Hx Hy. rewrite div_spec, Hy. unfold SF64div, SFdiv.
  destruct (Prim2SF x) as [sx|sx| |sx mx ex]; try discriminate; [congruence|].
  unfold SFdiv_core_binary.
  set (e' := Z.min _ _).
  set (m' := match ex - ey - e' with 0 => Zpos mx | Zpos _ => Z.shiftl (Zpos mx) (ex - ey - e') | Zneg _ => 0 end).
  assert (Hm' : 0 <= m').
  { unfold m'. destruct (ex - ey - e') eqn:E; try lia.
    apply Z.shiftl_nonneg. lia. }
  pose proof (Z.div_pos m' (Zpos my) Hm' ltac:(lia)) as Hq. unfold Z.div in Hq.
  destruct (Z.div_eucl m' (Zpos my)) as [q r]. simpl in Hq.
  apply binary_round_aux_not_nan. exact Hq.
Qed.

Lemma compare_comparable (x y : float) :
  Prim2SF x <> S754_nan -> Prim2SF y <> S754_nan -> PrimFloat.compare x y <> FNotComparable.
Proof.
  intros Hx Hy. rewrite compare_spec.
  destruct (Prim2SF x) as [sx|sx| |sx mx ex]; [| |congruence|];
  destruct (Prim2SF y) as [sy|sy| |sy my ey]; try congruence;
  cbn [SFcompare]; destruct_all bool; simpl; try discriminate;
  repeat match goal with |- context [match ?c with _ => _ end] => destruct c end; discriminate.
Qed.

(** ** [correction] returns or panics on [unwrap] *)

Lemma in_le_sum (m : freqmap_t) (k : string) (v : Z) :
  Forall (fun kv => 0 <= snd kv) m -> In (k, v) m -> v <= fold_right Z.add 0 (map snd m).
Proof.
  induction 1 as [|kv m Hkv Hm IH]; simpl; intros H; [contradiction|].
  assert (0 <= fold_right Z.add 0 (map snd m)).
  { clear -Hm. induction Hm; simpl; lia. }
  destruct H as [->|H]; simpl in *; [lia|]. specialize (IH H). lia.
Qed.

Lemma sum_u32_Ok (m : freqmap_t) :
  Forall (fun kv => 0 <= snd kv) m -> fold_right Z.add 0 (map snd m) <= u32_max ->
  sum_u32 (map snd m) = Ok (fold_right Z.add 0 (map snd m)).
Proof.
  intros Hm Hs. unfold sum_u32. rewrite sum_u32_fold_Ok; [reflexivity | lia | | lia].
  apply Forall_map. exact Hm.
Qed.

Lemma to_Z_of_Z_u32 (n : Z) : 0 <= n <= u32_max -> to_Z (of_Z n) = n.
Proof.
  intros Hn. rewrite of_Z_spec. apply Z.mod_small.
  assert (u32_max < wB) by (vm_compute; reflexivity). lia.
Qed.

Section Scores.

Variable self : SpellingCorrector.
Hypothesis counts_u32 : Forall (fun kv => 1 <= snd kv <= u32_max) (freqmap self).
Hypothesis total_u32 : fold_right Z.add 0 (map snd (freqmap self)) <= u32_max.

Lemma p_not_nan (x : string) :
  contains_key (freqmap self) x = true -> exists f, p self x = Ok f /\ Prim2SF f <> S754_nan.
Proof.
  unfold p, index, contains_key. destruct (lookup (freqmap self) x) as [c|] eqn:Hc;
    [intros _|discriminate].
  assert (H0 : Forall (fun kv => 0 <= snd kv) (freqmap self))
    by (eapply Forall_impl; [|exact counts_u32]; intros kv H; simpl in *; lia).
  cbn [bind]. rewrite sum_u32_Ok by assumption. cbn [bind].
  eexists; split; [reflexivity|].
  apply lookup_In in Hc.
  pose proof (proj1 (Forall_forall _ _) counts_u32 _ Hc) as Hcb. simpl in Hcb.
  pose proof (in_le_sum _ _ _ H0 Hc) as Hle.
  destruct (of_uint63_finite (of_Z (fold_right Z.add 0 (map snd (freqmap self))))) as (m & e & Hf).
  { rewrite to_Z_of_Z_u32 by lia.
    assert (u32_max < 2 ^ 53) by (vm_compute; reflexivity). lia. }
  unfold f64_from_u32. exact (div_not_nan _ _ false m e (of_uint63_not_nan _) Hf).
Qed.

Lemma cmp_p_Ok (a b : string) :
  contains_key (freqmap self) a = true -> contains_key (freqmap self) b = true ->
  exists o, cmp_p self a b = Ok o.
Proof.
  intros Ha Hb. unfold cmp_p.
  destruct (p_not_nan a Ha) as (fa & -> & Hfa). destruct (p_not_nan b Hb) as (fb & -> & Hfb).
  cbn [bind]. pose proof (compare_comparable fa fb Hfa Hfb).
  destruct (PrimFloat.compare fa fb); eauto; contradiction.
Qed.

Lemma max_by_fold_Ok (acc : string) (l : list string) :
  (forall x, In x (acc :: l) -> contains_key (freqmap self) x = true) ->
  exists r, max_by_fold self acc l = Ok r.
Proof.
  revert acc; induction l as [|y l IH]; simpl; intros acc Hk; [eauto|].
  destruct (cmp_p_Ok acc y) as (o & ->); auto. cbn [bind].
  destruct o; apply IH; intros x [<-|Hx]; auto.
Qed.

End Scores.

Lemma sum_zero (m : freqmap_t) :
  Forall (fun kv => snd kv = 0) m -> fold_right Z.add 0 (map snd m) = 0.
Proof. induction 1 as [|kv m Hkv _ IH]; simpl; [reflexivity|]. rewrite Hkv, IH. reflexivity. Qed.

Section Correction.

Variable iter : list string -> list string.
Hypothesis iter_perm : forall l, Permutation (iter l) l.

Lemma candidates_Ok self (w : string) :
  ascii_str (alphabet self) -> ascii_str w \/ contains_key (freqmap self) w = true ->
  exists cs, candidates iter self w = Ok cs.
Proof.
  intros Ha Hw. unfold candidates. rewrite known_single, !nonempty_test.
  destruct (contains_key (freqmap self) w) eqn:Hk; [eauto|].
  destruct Hw as [Hw|]; [|discriminate].
  rewrite edits1_ascii by exact Hw. cbn [bind].
  destruct (known self _); [|simpl; eauto].
  destruct (edits2_Ok_ascii iter iter_perm self w Hw Ha) as (e2 & ->). cbn [bind].
  destruct (known self e2); simpl; eauto.
Qed.

Lemma correction_Ok self (w : string) :
  ascii_str (alphabet self) ->
  ascii_str w \/ contains_key (freqmap self) w = true ->
  Forall (fun kv => 1 <= snd kv <= u32_max) (freqmap self) ->
  fold_right Z.add 0 (map snd (freqmap self)) <= u32_max ->
  exists r, correction iter self w = Ok r.
Proof.
  intros Ha Hw Hc Ht. destruct (candidates_Ok self w Ha Hw) as (cs & Hcs).
  unfold correction. rewrite Hcs. cbn [bind].
  destruct (candidates_members iter self w cs Hcs) as [->|Hk].
  - rewrite (iter_single iter iter_perm w). simpl. eauto.
  - pose proof (candidates_nonempty iter self w cs Hcs) as Hne.
    destruct (iter cs) as [|x l] eqn:Ei.
    + pose proof (iter_perm cs) as Hp. rewrite Ei in Hp.
      apply Permutation_nil in Hp. contradiction.
    + unfold max_by. destruct (max_by_fold_Ok self Hc Ht x l) as (r & ->).
      { intros y Hy. apply Hk. rewrite <- Ei in Hy. exact (Permutation_in _ (iter_perm cs) Hy). }
      cbn [bind]. eauto.
Qed.

(** [correction] returns (the [unwrap]s of [correction] and of [p]'s
    [partial_cmp] never fail, and nothing overflows or panics on a string
    index) when the alphabet is ASCII, the word is ASCII or a key of the
    table, every count is between 1 and [u32::MAX] (as in every table the
    builder makes) and the sum of the counts fits in a [u32]. *)
Theorem correction_returns self (w : string) :
  ascii_str (alphabet self) ->
  ascii_str w \/ contains_key (freqmap self) w = true ->
  Forall (fun kv => 1 <= snd kv <= u32_max) (freqmap self) ->
  fold_right Z.add 0 (map snd (freqmap self)) <= u32_max ->
  exists r, correction iter self w = Ok r.
Proof. exact (correction_Ok self w). Qed.

(** For a corrector made by [new] (the English alphabet), [correction]
    returns on every ASCII word, as long as the counts of the table sum to
    at most [u32::MAX]. *)
Theorem new_correction_returns (is_word : char -> bool) (low : string -> string)
    (text w : string) (sc : SpellingCorrector) :
  new is_word low text = Ok sc ->
  fold_right Z.add 0 (map snd (freqmap sc)) <= u32_max ->
  ascii_str w ->
  exists r, correction iter sc w = Ok r.
Proof.
  intros Hn Ht Hw. unfold new in Hn.
  destruct (with_alphabet_table_props is_word low text english_alphabet sc Hn)
    as (Ha & _ & Hkv).
  apply correction_Ok; [| left; exact Hw | | exact Ht].
  - rewrite Ha. unfold ascii_str. repeat constructor.
  - apply Forall_forall. intros [k v] Hin. exact (proj1 (Hkv k v Hin)).
Qed.

(** When every count of the table is 0 (the field [freqmap] is public), [p]
    of every key is [0.0 / 0.0], a NaN, and [correction] panics on the
    [unwrap] of [partial_cmp] as soon as [candidates] has two words to
    compare. *)
Theorem correction_zero_counts_panics self (w : string) (cs : list string) :
  Forall (fun kv => snd kv = 0) (freqmap self) ->
  candidates iter self w = Ok cs -> (2 <= List.length cs)%nat ->
  correction iter self w = Err P_unwrap_none.
Proof.
  intros Hz Hcs Hlen.
  destruct (candidates_members iter self w cs Hcs) as [->|Hk]; [simpl in Hlen; lia|].
  assert (Hp : forall x, In x cs ->
            p self x = Ok (PrimFloat.div (f64_from_u32 0) (f64_from_u32 0))).
  { intros x Hx. specialize (Hk x Hx). unfold p, index. unfold contains_key in Hk.
    destruct (lookup (freqmap self) x) as [c|] eqn:Hc; [|discriminate].
    apply lookup_In in Hc. pose proof (proj1 (Forall_forall _ _) Hz _ Hc) as Hc0.
    simpl in Hc0. subst c. cbn [bind].
    rewrite sum_u32_Ok, sum_zero by (try rewrite sum_zero by exact Hz;
      try (eapply Forall_impl; [|exact Hz]; intros kv H; simpl in *); unfold u32_max; lia).
    reflexivity. }
  unfold correction. rewrite Hcs. cbn [bind].
  pose proof (iter_perm cs) as Hperm.
  destruct (iter cs) as [|x [|y l]] eqn:Ei;
    [apply Permutation_length in Hperm; simpl in Hperm; lia
    |apply Permutation_length in Hperm; simpl in Hperm; lia|].
  unfold max_by. cbn [max_by_fold]. unfold cmp_p.
  rewrite (Hp x), (Hp y) by (apply (Permutation_in _ Hperm); simpl; auto).
  reflexivity.
Qed.

End Correction.

(** * Instances of the further properties *)

Lemma ascii_english_alphabet : ascii_str english_alphabet.
Proof. unfold ascii_str. repeat constructor. Qed.

Lemma edits1_Ok_iff_ascii_witness :
  exists s, edits1 sc_hello (lit "ab") = Ok s.
Proof.
  apply (proj2 (proj1 (edits1_Ok_iff_ascii sc_hello (lit "ab")))).
  unfold ascii_str. repeat constructor.
Defined.

Lemma edits1_members_witness :
  exists s, edits1 sc_hello (lit "ab") = Ok s /\ NoDup s /\ In (lit "ba") s.
Proof.
  assert (Hw : ascii_str (lit "ab")) by (unfold ascii_str; repeat constructor).
  destruct (edits1_members sc_hello (lit "ab") Hw) as (s & Hs & Hnd & Hm).
  exists s. split; [exact Hs|]. split; [exact Hnd|].
  apply Hm. right; left. exists [], 97, 98, []. split; reflexivity.
Defined.

Lemma correction_unknown_non_ascii_panics_witness :
  correction (fun l => l) sc_hello [233] = Err P_str_index.
Proof.
  apply (correction_unknown_non_ascii_panics (fun l => l) sc_hello [233]).
  - reflexivity.
  - intros H. inversion H as [|? ? H0 _]. vm_compute in H0. discriminate H0.
Defined.

(** A table over the two-letter alphabet [ab]. *)
Definition sc_ab : SpellingCorrector :=
  mkSpellingCorrector (lit "ab") [(lit "bb", 1)].

Lemma edits2_Ok_iff_ascii_witness :
  exists e2, edits2 (fun l => l) sc_ab (lit "a") = Ok e2.
Proof.
  apply (proj2 (proj1 (edits2_Ok_iff_ascii (fun l => l) (fun l => Permutation_refl l)
                         sc_ab (lit "a")))).
  split; unfold ascii_str; repeat constructor.
Defined.


Lemma with_alphabet_table_witness :
  with_alphabet ascii_is_word_char ascii_to_lowercase (lit "The cat") english_alphabet
    = Ok sc_lower /\ NoDup (map fst (freqmap sc_lower)).
Proof.
  assert (Hb : with_alphabet ascii_is_word_char ascii_to_lowercase (lit "The cat")
                 english_alphabet = Ok sc_lower) by (vm_compute; reflexivity).
  split; [exact Hb|].
  exact (proj1 (proj2 (with_alphabet_table ascii_is_word_char ascii_to_lowercase
                         (lit "The cat") english_alphabet sc_lower Hb))).
Defined.

(** A table of two words one replacement away from [thx], with counts 3
    and 1: [correction] compares the two by [p]. *)
Definition sc_the_thy : SpellingCorrector :=
  mkSpellingCorrector english_alphabet [(lit "the", 3); (lit "thy", 1)].

Lemma correction_returns_witness :
  candidates (fun l => l) sc_the_thy (lit "thx") = Ok [lit "the"; lit "thy"] /\
  p sc_the_thy (lit "the") = Ok (PrimFloat.div (f64_from_u32 3) (f64_from_u32 4)) /\
  p sc_the_thy (lit "thy") = Ok (PrimFloat.div (f64_from_u32 1) (f64_from_u32 4)) /\
  exists r, correction (fun l => l) sc_the_thy (lit "thx") = Ok r.
Proof.
  split; [vm_compute; reflexivity|].
  split; [vm_compute; reflexivity|].
  split; [vm_compute; reflexivity|].
  apply (correction_returns (fun l => l) (fun l => Permutation_refl l) sc_the_thy (lit "thx")).
  - exact ascii_english_alphabet.
  - left. unfold ascii_str. repeat constructor.
  - constructor; [simpl; unfold u32_max; lia | constructor; [simpl; unfold u32_max; lia | constructor]].
  - simpl. unfold u32_max. lia.
Defined.

Lemma new_correction_returns_witness :
  exists r, correction (fun l => l) sc_lower (lit "teh") = Ok r.
Proof.
  apply (new_correction_returns (fun l => l) (fun l => Permutation_refl l)
           ascii_is_word_char ascii_to_lowercase (lit "The cat") (lit "teh") sc_lower).
  - vm_compute. reflexivity.
  - simpl. unfold u32_max. lia.
  - unfold ascii_str. repeat constructor.
Defined.

(** A table whose two counts are 0. *)
Definition sc_zero : SpellingCorrector :=
  mkSpellingCorrector english_alphabet [(lit "cat", 0); (lit "bat", 0)].

Lemma correction_zero_counts_panics_witness :
  correction (fun l => l) sc_zero (lit "hat") = Err P_unwrap_none.
Proof.
  apply (correction_zero_counts_panics (fun l => l) (fun l => Permutation_refl l)
           sc_zero (lit "hat") [lit "bat"; lit "cat"]).
  - repeat constructor.
  - vm_compute. reflexivity.
  - simpl. lia.
Defined.
